(** * SparseClustering: greedy clustering of mass spectra (cluster.cpp)

    A shallow embedding of [src/cluster.cpp] and the properties its
    specification states about it.

    - [Arith] is the arithmetic the C++ code performs on its scalar type;
      [spectrum_t] and [peak_t] are declared in a file that is not part of
      the sources, so the scalar type is a parameter of the development.
    - [Module B32] instantiates it with IEEE-754 binary32 ([float]), built on
      the Standard Library's [SpecFloat]; all concrete runs use it.
    - [Module Exact] instantiates it with the real numbers.
    - A call that has no defined result (the merge walk never leaves its
      loop, a vector is indexed out of its range, a [float] does not fit an
      [int]) evaluates to [None]. *)

From Stdlib Require Import ZArith String Ascii List Reals Lra.
From Stdlib Require Import Floats.SpecFloat.
From Stdlib Require Import DecimalString.
From stdpp Require Import gmap strings list sorting.

(** ** The scalar arithmetic used by the code *)

Class Arith (F : Type) := {
  (** the literal [0] the accumulators start from *)
  f_zero : F;
  (** [x - y], [x + y], [x * y], [x / y] *)
  f_sub : F → F → F;
  f_add : F → F → F;
  f_mul : F → F → F;
  f_div : F → F → F;
  (** [fabs(x)], [sqrt(x)], [floorf(x)] *)
  f_fabs : F → F;
  f_sqrt : F → F;
  f_floorf : F → F;
  (** [x < y]; the code's [x > y] is [f_lt y x] *)
  f_lt : F → F → bool;
  (** [den += pow(x, 2)] *)
  f_add_pow2 : F → F → F;
  (** the literal [100] of [peak * 100] and [nearest / 100.f] *)
  f_hundred : F;
  (** conversion to [int] (defined when the value fits) and from [int] *)
  f_to_int : F → option Z;
  f_of_int : Z → F;
  (** the text [printf("%.2f", x)] produces *)
  f_printf2 : F → string;
  DEFAULT_PEPMASS_THRESHOLD : F;
  DEFAULT_PEAK_THRESHOLD : F;
  DEFAULT_SIMILARITY_THRESHOLD : F
}.

(** Modelled from the spec: [spectrum_t], declared in the absent
    [spectra.cpp] / [cluster.h]: a precursor mass, the peak masses, the
    intensities aligned with them, and the peak count the code reads. *)
Record spectrum_t (F : Type) := Spectrum {
  pepmass : F;
  peaks : list F;
  intensities : list F;
  num_peaks : nat
}.
Arguments Spectrum {F} _ _ _ _.
Arguments pepmass {F} _.
Arguments peaks {F} _.
Arguments intensities {F} _.
Arguments num_peaks {F} _.

(** [snprintf(buffer, n, ...)] keeps at most [n - 1] characters. *)
Definition snprintf (n : nat) (s : string) : string :=
  String.substring 0 (n - 1) s.

(** [for (i = ...; ...; i++) body], over the indices [idxs] in order, in
    the partial-result monad. *)
Fixpoint for_each {St : Type} (idxs : list nat) (body : nat → St → option St)
    (s : St) : option St :=
  match idxs with
  | [] => Some s
  | i :: rest => s' ← body i s; for_each rest body s'
  end.

(** [std::set<int>]: strictly ascending, duplicate-free. *)
Fixpoint set_insert (x : nat) (l : list nat) : list nat :=
  match l with
  | [] => [x]
  | y :: l' =>
      if decide (x < y)%nat then x :: y :: l'
      else if decide (x = y) then y :: l'
      else y :: set_insert x l'
  end.

(** [std::set<int> unq(v.begin(), v.end())], read back in order. *)
Definition set_of_vector (v : list nat) : list nat :=
  foldl (λ s x, set_insert x s) [] v.

(** [v[i] = x] on a [std::vector]; outside the vector there is no defined
    result. *)
Definition vector_write (v : list nat) (i x : nat) : option (list nat) :=
  if decide (i < length v)%nat then Some (<[i:=x]> v) else None.

Section Engine.
Context {F : Type} `{Arith F}.

(** *** Similarity engine *)

Definition passes_pepmass_test (a b : spectrum_t F) : bool :=
  f_lt (f_fabs (f_sub (pepmass a) (pepmass b))) DEFAULT_PEPMASS_THRESHOLD.

Definition is_identical_peak (a b : F) : bool :=
  f_lt (f_fabs (f_sub a b)) DEFAULT_PEAK_THRESHOLD.

(** The locals of [cosine_similarity]. *)
Record walk_t := Walk {
  w_i : nat;
  w_j : nat;
  w_score : F;
  w_a_den : F;
  w_b_den : F
}.

Definition walk_init : walk_t := Walk 0 0 f_zero f_zero f_zero.

(** [i < a.num_peaks && j < b.num_peaks] *)
Definition walk_guard (a b : spectrum_t F) (w : walk_t) : bool :=
  bool_decide (w_i w < num_peaks a)%nat && bool_decide (w_j w < num_peaks b)%nat.

(** One pass through the body of the [while]. When none of the three
    conditions holds the locals are left as they are. *)
Definition walk_body (a b : spectrum_t F) (w : walk_t) : option walk_t :=
  pa ← peaks a !! w_i w;
  pb ← peaks b !! w_j w;
  if is_identical_peak pa pb then
    ia ← intensities a !! w_i w;
    ib ← intensities b !! w_j w;
    Some (Walk (w_i w + 1) (w_j w + 1)
               (f_add (w_score w) (f_mul ia ib))
               (f_add_pow2 (w_a_den w) ia)
               (f_add_pow2 (w_b_den w) ib))
  else if f_lt pa pb then
    ia ← intensities a !! w_i w;
    Some (Walk (w_i w + 1) (w_j w) (w_score w)
               (f_add_pow2 (w_a_den w) ia) (w_b_den w))
  else if f_lt pb pa then
    ib ← intensities b !! w_j w;
    Some (Walk (w_i w) (w_j w + 1) (w_score w)
               (w_a_den w) (f_add_pow2 (w_b_den w) ib))
  else Some w.

(** The [while] loop, for at most [fuel] passes. *)
Fixpoint walk_loop (fuel : nat) (a b : spectrum_t F) (w : walk_t)
    : option walk_t :=
  if walk_guard a b w then
    match fuel with
    | O => None
    | S fuel' => w' ← walk_body a b w; walk_loop fuel' a b w'
    end
  else Some w.

(** A pass either moves a cursor or changes nothing, so
    [num_peaks a + num_peaks b] passes decide the loop (lemmas
    [walk_loop_more_fuel] and [walk_loop_stuck] below). *)
Definition cosine_similarity (a b : spectrum_t F) : option F :=
  w ← walk_loop (num_peaks a + num_peaks b) a b walk_init;
  Some (f_div (w_score w) (f_sqrt (f_mul (w_a_den w) (w_b_den w)))).

Definition is_similar (a b : spectrum_t F) : option bool :=
  s ← cosine_similarity a b;
  Some (f_lt DEFAULT_SIMILARITY_THRESHOLD s).

(** [passes_pepmass_test(a, b) && is_similar(a, b)] *)
Definition clusterable (a b : spectrum_t F) : option bool :=
  if passes_pepmass_test a b then is_similar a b else Some false.

(** *** Cluster array *)

Definition initialize_cluster (sz : nat) : list nat :=
  foldl (λ clusters i, <[i:=i]> clusters) (replicate sz 0%nat) (seq 0 sz).

(** [std::set<int>(clusters.begin(), clusters.end()).size()] of [main] *)
Definition num_clusters (clusters : list nat) : nat :=
  length (set_of_vector clusters).

(** *** Bucket index *)

Definition get_peak_bucket (peak : F) : option string :=
  round_peak ← f_to_int (f_floorf (f_mul peak f_hundred));
  let nearest := (Z.quot round_peak 2 * 2)%Z in
  Some (snprintf 10 (f_printf2 (f_div (f_of_int nearest) f_hundred))).

Definition get_common_peak_candidates (spectrum : spectrum_t F)
    (peak_buckets : gmap string (list nat)) : option (list nat) :=
  let sz := Nat.min 5 (num_peaks spectrum) in
  candidates ← for_each (seq 0 sz) (λ i candidates,
    peak ← peaks spectrum !! i;
    peak_str ← get_peak_bucket peak;
    match peak_buckets !! peak_str with
    | Some bucket => Some (candidates ++ bucket)
    | None => Some candidates
    end) [];
  Some (set_of_vector candidates).

Definition bucket_spectrum_peaks (peak_buckets : gmap string (list nat))
    (spectrum : spectrum_t F) (idx : nat) : option (gmap string (list nat)) :=
  let sz := Nat.min 5 (num_peaks spectrum) in
  for_each (seq 0 sz) (λ i peak_buckets,
    peak ← peaks spectrum !! i;
    peak_str ← get_peak_bucket peak;
    Some (<[peak_str := default [] (peak_buckets !! peak_str) ++ [idx]]>
            peak_buckets)) peak_buckets.

(** *** Heuristic driver *)

(** The inner [for] of [cluster_spectra]: the candidate that made the
    loop [break], if any. *)
Fixpoint scan_candidates (spectra : list (spectrum_t F)) (si : spectrum_t F)
    (candidates : list nat) : option (option nat) :=
  match candidates with
  | [] => Some None
  | candidate :: rest =>
      sc ← spectra !! candidate;
      ok ← clusterable si sc;
      if (ok : bool) then Some (Some candidate) else scan_candidates spectra si rest
  end.

(** One pass of the outer [for] of [cluster_spectra]. *)
Definition cluster_step (spectra : list (spectrum_t F)) (i : nat)
    (st : list nat * gmap string (list nat))
    : option (list nat * gmap string (list nat)) :=
  let '(clusters, peak_buckets) := st in
  si ← spectra !! i;
  candidates ← get_common_peak_candidates si peak_buckets;
  found ← scan_candidates spectra si candidates;
  match found with
  | Some candidate =>
      clusters' ← vector_write clusters i candidate;
      Some (clusters', peak_buckets)
  | None =>
      peak_buckets' ← bucket_spectrum_peaks peak_buckets si i;
      Some (clusters, peak_buckets')
  end.

(** The state after the first [k] passes. *)
Definition cluster_prefix (k : nat) (clusters : list nat)
    (spectra : list (spectrum_t F))
    : option (list nat * gmap string (list nat)) :=
  for_each (seq 0 k) (cluster_step spectra)
    (clusters, (∅ : gmap string (list nat))).

Definition cluster_spectra (clusters : list nat)
    (spectra : list (spectrum_t F)) : option (list nat) :=
  st ← cluster_prefix (length spectra) clusters spectra;
  Some st.1.

(** *** Naive driver *)

(** The inner [for] of [naive_cluster_spectra] from index [j] on, over
    the entries [clusters[j], clusters[j+1], ...] given as [entries];
    returns the candidate at which it broke, if any, and the final
    [seen_candidates]. *)
Fixpoint naive_scan (spectra : list (spectrum_t F)) (si : spectrum_t F)
    (entries : list nat) (seen_candidates : gset nat)
    : option (option nat * gset nat) :=
  match entries with
  | [] => Some (None, seen_candidates)
  | candidate :: rest =>
      if decide (candidate ∈ seen_candidates) then
        naive_scan spectra si rest seen_candidates
      else
        sc ← spectra !! candidate;
        ok ← clusterable si sc;
        if (ok : bool) then Some (Some candidate, seen_candidates)
        else naive_scan spectra si rest ({[candidate]} ∪ seen_candidates)
  end.

(** One pass of the outer [for] of [naive_cluster_spectra]. *)
Definition naive_step (spectra : list (spectrum_t F)) (i : nat)
    (clusters : list nat) : option (list nat) :=
  si ← spectra !! i;
  if decide (i ≤ length clusters)%nat then
    r ← naive_scan spectra si (take i clusters) ∅;
    match r.1 with
    | Some candidate => vector_write clusters i candidate
    | None => Some clusters
    end
  else None.

Definition naive_prefix (k : nat) (clusters : list nat)
    (spectra : list (spectrum_t F)) : option (list nat) :=
  for_each (seq 1 (k - 1)) (naive_step spectra) clusters.

Definition naive_cluster_spectra (clusters : list nat)
    (spectra : list (spectrum_t F)) : option (list nat) :=
  naive_prefix (length spectra) clusters spectra.

End Engine.

(** ** IEEE-754 binary32: the arithmetic of [float] *)

Module B32.

Definition prec : Z := 24.
Definition emax : Z := 128.

(** [int] to [float], round to nearest even. *)
Definition of_int (z : Z) : spec_float := binary_normalize prec emax z 0 false.

(** [double] to [float], round to nearest even. The other way a [float]
    is read as the [double] of the same sign, mantissa and exponent. *)
Definition narrow (x : spec_float) : spec_float :=
  match x with
  | S754_finite s m e => binary_round prec emax s m e
  | _ => x
  end.

(** [pow(x, 2)], the [double] function, on a [float] argument. *)
Definition pow2 (x : spec_float) : spec_float := SFmul 53 1024 x x.

(** [den += pow(x, 2)]: the sum is taken in [double] and stored back
    into the [float]. *)
Definition add_pow2 (den x : spec_float) : spec_float :=
  narrow (SFadd 53 1024 den (pow2 x)).

Definition floorf (x : spec_float) : spec_float :=
  match x with
  | S754_finite s m e =>
      if (0 <=? e)%Z then x
      else
        match (cond_Zopp s (Zpos m) / 2 ^ (- e))%Z with
        | Z0 => S754_zero s
        | k => of_int k
        end
  | _ => x
  end.

(** Conversion to [int] truncates, and is defined only when the result
    fits 32 bits. *)
Definition to_int (x : spec_float) : option Z :=
  match x with
  | S754_zero _ => Some 0%Z
  | S754_finite s m e =>
      let k := Z.quot (cond_Zopp s (Zpos m) * 2 ^ Z.max e 0) (2 ^ Z.max (- e) 0) in
      if ((- 2 ^ 31 <=? k) && (k <? 2 ^ 31))%Z then Some k else None
  | _ => None
  end.

Definition sign_text (s : bool) : string := if s then "-" else "".

Definition decimal (n : Z) : string :=
  NilZero.string_of_uint (N.to_uint (Z.to_N n)).

Definition two_digits (n : Z) : string :=
  if (n <? 10)%Z then "0" +:+ decimal n else decimal n.

(** [printf("%.2f", x)]: the exact value of [x], rounded to hundredths,
    ties to even. *)
Definition printf2 (x : spec_float) : string :=
  match x with
  | S754_nan => "nan"
  | S754_infinity s => sign_text s +:+ "inf"
  | S754_zero s => sign_text s +:+ "0.00"
  | S754_finite s m e =>
      let num := (Zpos m * 100 * 2 ^ Z.max e 0)%Z in
      let den := (2 ^ Z.max (- e) 0)%Z in
      let q := (num / den)%Z in
      let r := (num mod den)%Z in
      let n := if (2 * r <? den)%Z then q
               else if (den <? 2 * r)%Z then (q + 1)%Z
               else if Z.even q then q else (q + 1)%Z in
      sign_text s +:+ decimal (n / 100) +:+ "." +:+ two_digits (n mod 100)
  end.

#[global] Instance arith : Arith spec_float := {|
  f_zero := S754_zero false;
  f_sub := SFsub prec emax;
  f_add := SFadd prec emax;
  f_mul := SFmul prec emax;
  f_div := SFdiv prec emax;
  f_fabs := SFabs;
  f_sqrt := SFsqrt prec emax;
  f_floorf := floorf;
  f_lt := SFltb;
  f_add_pow2 := add_pow2;
  f_hundred := S754_finite false 13107200 (-17);
  f_to_int := to_int;
  f_of_int := of_int;
  f_printf2 := printf2;
  (* 2.f, 0.02f, 0.7f *)
  DEFAULT_PEPMASS_THRESHOLD := S754_finite false 8388608 (-22);
  DEFAULT_PEAK_THRESHOLD := S754_finite false 10737418 (-29);
  DEFAULT_SIMILARITY_THRESHOLD := S754_finite false 11744051 (-24)
|}.

(** The [float] nearest to the decimal [n / 10^k], for [n] and [10^k]
    below [2^24]. *)
Definition dec (n : Z) (k : Z) : spec_float :=
  SFdiv prec emax (of_int n) (of_int (10 ^ k)).

Definition is_finite (x : spec_float) : bool :=
  match x with S754_zero _ | S754_finite _ _ _ => true | _ => false end.

Definition is_zero (x : spec_float) : bool :=
  match x with S754_zero _ => true | _ => false end.

(** The values an accumulated sum of squares takes other than [+0]: a
    positive number with an exponent of the format, [+inf], or NaN. *)
Definition positive_den (d : spec_float) : Prop :=
  match d with
  | S754_finite false _ e => (-149 ≤ e)%Z
  | S754_infinity false | S754_nan => True
  | _ => False
  end.

Definition den_ok (d : spec_float) : Prop :=
  d = S754_zero false ∨ positive_den d.

(** The square of [x] is at most [2^-150], half the smallest positive
    [float], and so vanishes when stored in a [float]. *)
Definition vanishing_square (x : spec_float) : Prop :=
  match x with
  | S754_zero _ => True
  | S754_finite _ m e => (Zpos m * Zpos m ≤ 2 ^ (-150 - 2 * e))%Z
  | _ => False
  end.

(** What holds of the locals of [cosine_similarity] throughout the
    walk: while both sums of squares are zero, so is the numerator. *)
Definition walk_inv (w : walk_t (F:=spec_float)) : Prop :=
  den_ok (w_a_den w) ∧ den_ok (w_b_den w) ∧
  (is_zero (w_a_den w) = true → is_zero (w_b_den w) = true →
   is_zero (w_score w) = true).

(** The intensities are binary32 values. *)
Definition intensities_valid (a : spectrum_t spec_float) : bool :=
  forallb (valid_binary prec emax) (intensities a).

(** Scenario A of the specification. *)
Definition S0 : spectrum_t spec_float :=
  Spectrum (dec 5000 1) [dec 10000 2; dec 20000 2; dec 30000 2]
           [of_int 1; of_int 1; of_int 1] 3.
Definition S1 : spectrum_t spec_float :=
  Spectrum (dec 5005 1) [dec 10000 2; dec 20000 2; dec 30000 2]
           [of_int 1; of_int 1; of_int 1] 3.
Definition S2 : spectrum_t spec_float :=
  Spectrum (dec 5500 1) [dec 10000 2; dec 20000 2; dec 30000 2]
           [of_int 1; of_int 1; of_int 1] 3.
Definition scenario_A : list (spectrum_t spec_float) := [S0; S1; S2].

End B32.

(** ** Exact arithmetic: the real numbers *)

Module Exact.

Definition Rltb (x y : R) : bool := if Rlt_dec x y then true else false.

Definition floor (x : R) : Z := (up x - 1)%Z.

Definition trunc (x : R) : Z := if Rlt_dec x 0 then (- floor (- x))%Z else floor x.

Definition to_int (x : R) : option Z :=
  let k := trunc x in
  if ((- 2 ^ 31 <=? k) && (k <? 2 ^ 31))%Z then Some k else None.

Definition printf2 (x : R) : string :=
  let y := (Rabs x * 100)%R in
  let q := floor y in
  let r := (y - IZR q)%R in
  let n := if Rlt_dec r (1 / 2) then q
           else if Rlt_dec (1 / 2) r then (q + 1)%Z
           else if Z.even q then q else (q + 1)%Z in
  B32.sign_text (Rltb x 0) +:+ B32.decimal (n / 100) +:+ "." +:+
  B32.two_digits (n mod 100).

#[global] Instance arith : Arith R := {|
  f_zero := 0%R;
  f_sub := Rminus;
  f_add := Rplus;
  f_mul := Rmult;
  f_div := Rdiv;
  f_fabs := Rabs;
  f_sqrt := sqrt;
  f_floorf := λ x, IZR (floor x);
  f_lt := Rltb;
  f_add_pow2 := λ den x, (den + x ^ 2)%R;
  f_hundred := 100%R;
  f_to_int := to_int;
  f_of_int := IZR;
  f_printf2 := printf2;
  DEFAULT_PEPMASS_THRESHOLD := 2%R;
  DEFAULT_PEAK_THRESHOLD := (2 / 100)%R;
  DEFAULT_SIMILARITY_THRESHOLD := (7 / 10)%R
|}.

End Exact.

(** ** Input conditions, as executable checks *)

Section Checks.
Context {F : Type} `{Arith F}.

(** The arrays hold the [num_peaks] entries the code reads. *)
Definition spectrum_wf (a : spectrum_t F) : bool :=
  bool_decide (num_peaks a ≤ length (peaks a))%nat &&
  bool_decide (num_peaks a ≤ length (intensities a))%nat.

(** The three conditions of the merge walk cover every pair of peaks of
    [a] and [b]: the peaks are totally ordered by [<]. *)
Definition peaks_comparable (a b : spectrum_t F) : bool :=
  forallb (λ pa,
    forallb (λ pb, is_identical_peak pa pb || f_lt pa pb || f_lt pb pa)
            (take (num_peaks b) (peaks b)))
    (take (num_peaks a) (peaks a)).

(** The peaks the bucket index reads have a bucket key. *)
Definition bucketable (a : spectrum_t F) : bool :=
  forallb (λ p, bool_decide (is_Some (get_peak_bucket p)))
          (take (Nat.min 5 (num_peaks a)) (peaks a)).

(** What [naive_cluster_spectra] needs of its input to return. *)
Definition naive_input_ok (spectra : list (spectrum_t F)) : bool :=
  forallb spectrum_wf spectra &&
  forallb (λ a, forallb (peaks_comparable a) spectra) spectra.

(** What [cluster_spectra] needs of its input to return. *)
Definition input_ok (spectra : list (spectrum_t F)) : bool :=
  naive_input_ok spectra && forallb bucketable spectra.

(** The number of the peaks read by the bucket index that have key [key]. *)
Definition key_hits (a : spectrum_t F) (key : string) : nat :=
  length (filter (λ p, get_peak_bucket p = Some key)
                 (take (Nat.min 5 (num_peaks a)) (peaks a))).

(** The bucket list stored under [key] (empty when the key is absent). *)
Definition bucket_of (peak_buckets : gmap string (list nat)) (key : string)
    : list nat :=
  default [] (peak_buckets !! key).

(** The candidates of a naive scan in the order they are first met,
    leaving out those in [seen]. *)
Fixpoint first_occurrences (seen : gset nat) (entries : list nat) : list nat :=
  match entries with
  | [] => []
  | c :: rest =>
      if decide (c ∈ seen) then first_occurrences seen rest
      else c :: first_occurrences ({[c]} ∪ seen) rest
  end.

(** The answer of the acceptance test of spectrum [si] against the
    spectrum at index [c]. *)
Definition accepts (spectra : list (spectrum_t F)) (si : spectrum_t F)
    (c : nat) : option bool :=
  sc ← spectra !! c; clusterable si sc.

(** [key_hits] of the spectrum at index [c]. *)
Definition hits (spectra : list (spectrum_t F)) (key : string) (c : nat) : nat :=
  from_option (λ a, key_hits a key) 0%nat (spectra !! c).

(** The indices below [k] that are their own representative in
    [clusters], in ascending order. *)
Definition roots_below (clusters : list nat) (k : nat) : list nat :=
  filter (λ c, clusters !! c = Some c) (seq 0 k).

(** What holds of the array and the bucket index of [cluster_spectra]
    before pass [k]: entries from [k] on are untouched, earlier entries
    point to an own representative that accepted them, and each bucket
    lists the own representatives below [k], in ascending order, once
    for each of their peaks read under that key. *)
Definition cluster_inv (spectra : list (spectrum_t F)) (k : nat)
    (st : list nat * gmap string (list nat)) : Prop :=
  length st.1 = length spectra ∧
  (∀ i, (k ≤ i < length spectra)%nat → st.1 !! i = Some i) ∧
  (∀ i r, (i < k)%nat → st.1 !! i = Some r →
     (r ≤ i)%nat ∧ st.1 !! r = Some r ∧
     (r ≠ i → ∃ si, spectra !! i = Some si ∧ accepts spectra si r = Some true)) ∧
  (∀ key, bucket_of st.2 key
          = flat_map (λ c, replicate (hits spectra key c) c) (roots_below st.1 k)).

(** The same for the array of [naive_cluster_spectra] before pass [k]. *)
Definition naive_inv (spectra : list (spectrum_t F)) (k : nat)
    (clusters : list nat) : Prop :=
  length clusters = length spectra ∧
  (∀ i, (k ≤ i < length spectra)%nat → clusters !! i = Some i) ∧
  (∀ i r, (i < k)%nat → clusters !! i = Some r →
     (r ≤ i)%nat ∧ clusters !! r = Some r ∧
     (r ≠ i → ∃ si, spectra !! i = Some si ∧ accepts spectra si r = Some true)).


End Checks.

(** ** Shifting a mantissa *)

Section Shifting.
Local Open Scope Z_scope.

(** What [k] steps of [shr_1] keep of the mantissa [m]: its quotient by
    [2^k], the next bit, and whether anything lies below that. *)
Definition shr_steps (m : Z) (k : nat) (mrs : shr_record) : Prop :=
  0 ≤ shr_m mrs ∧
  ∃ t, 0 ≤ t ∧
    m = shr_m mrs * 2 ^ Z.of_nat k
        + (if shr_r mrs then 2 ^ (Z.of_nat k - 1) else 0) + t ∧
    (k = 0%nat → t = 0 ∧ shr_r mrs = false) ∧
    (k ≠ 0%nat → t < 2 ^ (Z.of_nat k - 1)) ∧
    (shr_s mrs = true ↔ 0 < t).

End Shifting.

(** ** Inputs of the concrete runs *)

Module B32Runs.
Import B32.

(** One representative at pepmass 500.0 and two spectra 1.5 away from it
    on either side, with the peaks of scenario A. *)
Definition G0 : spectrum_t spec_float := S0.
Definition G1 : spectrum_t spec_float :=
  Spectrum (dec 4985 1) [dec 10000 2; dec 20000 2; dec 30000 2]
           [of_int 1; of_int 1; of_int 1] 3.
Definition G2 : spectrum_t spec_float :=
  Spectrum (dec 5015 1) [dec 10000 2; dec 20000 2; dec 30000 2]
           [of_int 1; of_int 1; of_int 1] 3.
Definition gate_spectra : list (spectrum_t spec_float) := [G0; G1; G2].

(** A spectrum whose two peaks, 100.00 and 100.01, share a bucket. *)
Definition twin_peaks : list (spectrum_t spec_float) :=
  [ Spectrum (dec 5000 1) [dec 10000 2; dec 10001 2] [of_int 1; of_int 1] 2 ].


(** A spectrum with one peak whose intensity, about [1e-30], has a
    square below the smallest positive [float], twice. *)
Definition faint : spectrum_t spec_float :=
  Spectrum (dec 5000 1) [dec 10000 2]
           [SFdiv prec emax (of_int 1) (of_int (10 ^ 30))] 1.
Definition faint_spectra : list (spectrum_t spec_float) := [faint; faint].

End B32Runs.

(** ** Further executable conditions *)

Section MoreChecks.
Context {F : Type} `{Arith F}.

(** Some peak read by the bucket index from [a] has a key under which
    [b] would be registered. *)
Definition shares_key (a b : spectrum_t F) : bool :=
  existsb (λ p, match get_peak_bucket p with
                | Some key => bool_decide (0 < key_hits b key)%nat
                | None => false
                end)
          (take (Nat.min 5 (num_peaks a)) (peaks a)).

(** Every pair of the input that passes both tests shares a key. *)
Definition key_closed (spectra : list (spectrum_t F)) : bool :=
  forallb (λ a, forallb (λ b,
    implb (bool_decide (clusterable a b = Some true)) (shares_key a b))
    spectra) spectra.

(** The locals of [cosine_similarity(b, a)] that mirror those of
    [cosine_similarity(a, b)]. *)
Definition walk_swap (w : walk_t (F:=F)) : walk_t :=
  Walk (w_j w) (w_i w) (w_score w) (w_b_den w) (w_a_den w).

End MoreChecks.

(** ** Further inputs of the concrete runs *)

Module B32More.
Import B32.

(** A spectrum without peaks and one whose pepmass is not a number. *)
Definition no_peaks : spectrum_t spec_float := Spectrum (dec 5000 1) [] [] 0.
Definition nan_pepmass : spectrum_t spec_float :=
  Spectrum S754_nan [dec 10000 2; dec 20000 2; dec 30000 2]
           [of_int 1; of_int 1; of_int 1] 3.
Definition with_outcasts : list (spectrum_t spec_float) :=
  [S0; no_peaks; nan_pepmass; S1].

(** A spectrum whose first peak is not a number. *)
Definition nan_peak : spectrum_t spec_float :=
  Spectrum (dec 5000 1) [S754_nan; dec 20000 2] [of_int 1; of_int 1] 2.
End B32More.

(** * Proofs *)

Lemma for_each_app {St : Type} (l1 l2 : list nat) (body : nat → St → option St) s :
  for_each (l1 ++ l2) body s = s' ← for_each l1 body s; for_each l2 body s'.
Proof.
  revert s. induction l1 as [|i l1 IH]; intros s; simpl; [done|].
  destruct (body i s) as [s'|]; simpl; [apply IH|done].
Qed.

Lemma for_each_seq_S {St : Type} (start k : nat) (body : nat → St → option St) s :
  for_each (seq start (S k)) body s
  = s' ← for_each (seq start k) body s; body (start + k)%nat s'.
Proof.
  rewrite seq_S, for_each_app. destruct (for_each (seq start k) body s) as [s'|]; simpl; [|done].
  by destruct (body (start + k)%nat s').
Qed.

Lemma initialize_cluster_prefix (k : nat) (l : list nat) :
  (k ≤ length l)%nat →
  foldl (λ clusters i, <[i:=i]> clusters) l (seq 0 k) = seq 0 k ++ drop k l.
Proof.
  induction k as [|k IH]; intros Hk; [by rewrite drop_0|].
  rewrite seq_S, foldl_app, IH by lia. simpl.
  rewrite insert_app_r_alt by (rewrite length_seq; lia).
  rewrite length_seq, Nat.sub_diag.
  destruct (drop k l) as [|x r] eqn:E.
  - apply (f_equal length) in E. rewrite length_drop in E. simpl in E. lia.
  - simpl. rewrite <- app_assoc. simpl. do 2 f_equal.
    change r with (drop 1 (x :: r)). rewrite <- E, drop_drop. f_equal. lia.
Qed.

Lemma initialize_cluster_seq (sz : nat) : initialize_cluster sz = seq 0 sz.
Proof.
  unfold initialize_cluster. rewrite initialize_cluster_prefix by (by rewrite length_replicate).
  rewrite drop_ge by (by rewrite length_replicate). apply app_nil_r.
Qed.

Lemma set_insert_elem (x y : nat) (l : list nat) :
  y ∈ set_insert x l ↔ y = x ∨ y ∈ l.
Proof.
  induction l as [|z l IH]; simpl.
  - set_solver.
  - repeat case_decide; subst; rewrite ?elem_of_cons, ?IH; naive_solver.
Qed.

Lemma set_insert_sorted (x : nat) (l : list nat) :
  StronglySorted lt l → StronglySorted lt (set_insert x l).
Proof.
  induction 1 as [|z l Hl IH Hz]; simpl.
  - repeat constructor.
  - repeat case_decide; subst.
    + constructor; [by constructor|]. constructor; [done|].
      eapply Forall_impl; [exact Hz|]. simpl. lia.
    + by constructor.
    + constructor; [done|]. apply Forall_forall. intros y Hy.
      apply set_insert_elem in Hy as [->|Hy]; [lia|].
      rewrite Forall_forall in Hz. by apply Hz.
Qed.

Lemma set_of_vector_acc_elem (v acc : list nat) (y : nat) :
  y ∈ foldl (λ s x, set_insert x s) acc v ↔ y ∈ v ∨ y ∈ acc.
Proof.
  revert acc. induction v as [|x v IH]; intros acc; simpl.
  - set_solver.
  - rewrite IH, set_insert_elem, elem_of_cons. naive_solver.
Qed.

Lemma set_of_vector_elem (v : list nat) (y : nat) : y ∈ set_of_vector v ↔ y ∈ v.
Proof. unfold set_of_vector. rewrite set_of_vector_acc_elem. set_solver. Qed.

Lemma set_of_vector_sorted (v : list nat) : StronglySorted lt (set_of_vector v).
Proof.
  unfold set_of_vector. generalize (SSorted_nil lt). generalize (@nil nat).
  induction v as [|x v IH]; intros acc Hacc; simpl; [done|].
  apply IH. by apply set_insert_sorted.
Qed.

Lemma strictly_sorted_NoDup (l : list nat) : StronglySorted lt l → NoDup l.
Proof.
  induction 1 as [|z l Hl IH Hz]; constructor; [|done].
  intros Hin. rewrite Forall_forall in Hz. specialize (Hz _ Hin). lia.
Qed.

(** ** The merge walk *)

Section WalkFacts.
Context {F : Type} `{Arith F}.
Implicit Types a b : spectrum_t F.
Implicit Types w : walk_t (F:=F).

Lemma walk_guard_true a b w :
  walk_guard a b w = true ↔ (w_i w < num_peaks a ∧ w_j w < num_peaks b)%nat.
Proof.
  unfold walk_guard. rewrite andb_true_iff, !bool_decide_eq_true. tauto.
Qed.

Lemma spectrum_wf_lookup a i :
  spectrum_wf a = true → (i < num_peaks a)%nat →
  is_Some (peaks a !! i) ∧ is_Some (intensities a !! i).
Proof.
  unfold spectrum_wf. rewrite andb_true_iff, !bool_decide_eq_true.
  intros [Hp Hi] Hlt. split; apply lookup_lt_is_Some; lia.
Qed.

Lemma peaks_comparable_lookup a b i j pa pb :
  peaks_comparable a b = true →
  (i < num_peaks a)%nat → (j < num_peaks b)%nat →
  peaks a !! i = Some pa → peaks b !! j = Some pb →
  is_identical_peak pa pb = false → f_lt pa pb = false → f_lt pb pa = true.
Proof.
  unfold peaks_comparable. rewrite forallb_forall. intros Hc Hi Hj Ha Hb Hid Hlt.
  assert (In pa (take (num_peaks a) (peaks a))) as Hina.
  { apply list_elem_of_In, list_elem_of_lookup. exists i. by rewrite lookup_take_lt. }
  assert (In pb (take (num_peaks b) (peaks b))) as Hinb.
  { apply list_elem_of_In, list_elem_of_lookup. exists j. by rewrite lookup_take_lt. }
  specialize (Hc _ Hina). rewrite forallb_forall in Hc. specialize (Hc _ Hinb).
  rewrite Hid, Hlt in Hc. exact Hc.
Qed.

(** A pass that leaves the locals unchanged repeats forever. *)
Lemma walk_loop_stuck a b w fuel :
  walk_guard a b w = true → walk_body a b w = Some w →
  walk_loop fuel a b w = None.
Proof.
  intros Hg Hb. induction fuel as [|fuel IH]; simpl; rewrite Hg; [done|].
  rewrite Hb. simpl. exact IH.
Qed.

(** A pass moves at least one cursor by one, or changes nothing. *)
Lemma walk_body_cases a b w w' :
  walk_body a b w = Some w' →
  w' = w ∨
  ((w_i w ≤ w_i w' ≤ w_i w + 1)%nat ∧ (w_j w ≤ w_j w' ≤ w_j w + 1)%nat ∧
   (w_i w + w_j w < w_i w' + w_j w')%nat).
Proof.
  unfold walk_body. intros Hb.
  destruct (peaks a !! w_i w) as [pa|]; simpl in Hb; [|done].
  destruct (peaks b !! w_j w) as [pb|]; simpl in Hb; [|done].
  destruct (is_identical_peak pa pb).
  { destruct (intensities a !! w_i w); simpl in Hb; [|done].
    destruct (intensities b !! w_j w); simpl in Hb; [|done].
    inversion Hb; subst; simpl. right. lia. }
  destruct (f_lt pa pb).
  { destruct (intensities a !! w_i w); simpl in Hb; [|done].
    inversion Hb; subst; simpl. right. lia. }
  destruct (f_lt pb pa).
  { destruct (intensities b !! w_j w); simpl in Hb; [|done].
    inversion Hb; subst; simpl. right. lia. }
  left. by inversion Hb.
Qed.

(** The four ways through the body of the loop. *)
Lemma walk_body_inversion a b w w' :
  walk_body a b w = Some w' →
  (∃ ia ib, intensities a !! w_i w = Some ia ∧ intensities b !! w_j w = Some ib ∧
     w' = Walk (w_i w + 1) (w_j w + 1) (f_add (w_score w) (f_mul ia ib))
               (f_add_pow2 (w_a_den w) ia) (f_add_pow2 (w_b_den w) ib)) ∨
  (∃ ia, intensities a !! w_i w = Some ia ∧
     w' = Walk (w_i w + 1) (w_j w) (w_score w)
               (f_add_pow2 (w_a_den w) ia) (w_b_den w)) ∨
  (∃ ib, intensities b !! w_j w = Some ib ∧
     w' = Walk (w_i w) (w_j w + 1) (w_score w)
               (w_a_den w) (f_add_pow2 (w_b_den w) ib)) ∨
  w' = w.
Proof.
  unfold walk_body. intros Hb.
  destruct (peaks a !! w_i w) as [pa|]; simpl in Hb; [|done].
  destruct (peaks b !! w_j w) as [pb|]; simpl in Hb; [|done].
  destruct (is_identical_peak pa pb).
  { destruct (intensities a !! w_i w) as [ia|]; simpl in Hb; [|done].
    destruct (intensities b !! w_j w) as [ib|]; simpl in Hb; [|done].
    left. exists ia, ib. by inversion Hb. }
  destruct (f_lt pa pb).
  { destruct (intensities a !! w_i w) as [ia|]; simpl in Hb; [|done].
    right; left. exists ia. by inversion Hb. }
  destruct (f_lt pb pa).
  { destruct (intensities b !! w_j w) as [ib|]; simpl in Hb; [|done].
    right; right; left. exists ib. by inversion Hb. }
  right; right; right. by inversion Hb.
Qed.

(** What every pass keeps, the loop keeps. *)
Lemma walk_loop_invariant (P : walk_t → Prop) a b fuel w w' :
  (∀ w1 w2, P w1 → walk_body a b w1 = Some w2 → P w2) →
  P w → walk_loop fuel a b w = Some w' → P w'.
Proof.
  intros Hstep. revert w. induction fuel as [|fuel IH]; intros w HP; simpl.
  - destruct (walk_guard a b w); [done|]. by intros [= <-].
  - destruct (walk_guard a b w); [|by intros [= <-]].
    destruct (walk_body a b w) as [w1|] eqn:Hbody; simpl; [|done].
    apply IH. by eapply Hstep.
Qed.

(** With comparable peaks every pass inside the arrays moves a cursor. *)
Lemma walk_body_progress a b w :
  spectrum_wf a = true → spectrum_wf b = true → peaks_comparable a b = true →
  walk_guard a b w = true →
  ∃ w', walk_body a b w = Some w' ∧
    (w_i w ≤ w_i w' ≤ w_i w + 1)%nat ∧ (w_j w ≤ w_j w' ≤ w_j w + 1)%nat ∧
    (w_i w + w_j w < w_i w' + w_j w')%nat.
Proof.
  intros Ha Hb Hc Hg. apply walk_guard_true in Hg as [Hi Hj].
  destruct (spectrum_wf_lookup a _ Ha Hi) as [[pa Hpa] [ia Hia]].
  destruct (spectrum_wf_lookup b _ Hb Hj) as [[pb Hpb] [ib Hib]].
  pose proof (peaks_comparable_lookup a b _ _ pa pb Hc Hi Hj Hpa Hpb) as Htot.
  unfold walk_body. rewrite Hpa, Hpb, Hia, Hib. simpl.
  destruct (is_identical_peak pa pb); [eexists; split; [done|simpl; lia]|].
  destruct (f_lt pa pb); [eexists; split; [done|simpl; lia]|].
  rewrite Htot by done. eexists; split; [done|simpl; lia].
Qed.

(** Fuel beyond the number of peaks still to read changes nothing. *)
Lemma walk_loop_more_fuel a b fuel extra w :
  (w_i w ≤ num_peaks a)%nat → (w_j w ≤ num_peaks b)%nat →
  (num_peaks a - w_i w + (num_peaks b - w_j w) ≤ fuel)%nat →
  walk_loop (fuel + extra) a b w = walk_loop fuel a b w.
Proof.
  revert w. induction fuel as [|fuel IH]; intros w Hi Hj Hf.
  - simpl. destruct (walk_guard a b w) eqn:Hg.
    + apply walk_guard_true in Hg. lia.
    + destruct extra; simpl; by rewrite Hg.
  - simpl. destruct (walk_guard a b w) eqn:Hg; [|done].
    pose proof Hg as Hg'. apply walk_guard_true in Hg' as [Hi' Hj'].
    destruct (walk_body a b w) as [w'|] eqn:Hb; simpl; [|done].
    destruct (walk_body_cases _ _ _ _ Hb) as [->|(Hi2 & Hj2 & Hlt)].
    + by rewrite !walk_loop_stuck.
    + apply IH; lia.
Qed.

(** With comparable peaks the loop is left after at most
    [num_peaks a + num_peaks b] passes. *)
Lemma walk_loop_total a b fuel w :
  spectrum_wf a = true → spectrum_wf b = true → peaks_comparable a b = true →
  (w_i w ≤ num_peaks a)%nat → (w_j w ≤ num_peaks b)%nat →
  (num_peaks a - w_i w + (num_peaks b - w_j w) ≤ fuel)%nat →
  ∃ w', walk_loop fuel a b w = Some w' ∧ walk_guard a b w' = false.
Proof.
  intros Ha Hb Hc. revert w. induction fuel as [|fuel IH]; intros w Hi Hj Hf.
  - simpl. destruct (walk_guard a b w) eqn:Hg; [|by eexists].
    apply walk_guard_true in Hg. lia.
  - simpl. destruct (walk_guard a b w) eqn:Hg; [|by eexists].
    destruct (walk_body_progress a b w Ha Hb Hc Hg) as (w' & Hw' & Hi2 & Hj2 & Hlt).
    rewrite Hw'. simpl. apply walk_guard_true in Hg as [Hi' Hj'].
    apply IH; lia.
Qed.

Lemma cosine_similarity_total a b :
  spectrum_wf a = true → spectrum_wf b = true → peaks_comparable a b = true →
  is_Some (cosine_similarity a b).
Proof.
  intros Ha Hb Hc. unfold cosine_similarity.
  destruct (walk_loop_total a b (num_peaks a + num_peaks b) walk_init Ha Hb Hc)
    as (w & -> & _); simpl; [lia..|]. by eexists.
Qed.

Lemma clusterable_total a b :
  spectrum_wf a = true → spectrum_wf b = true → peaks_comparable a b = true →
  is_Some (clusterable a b).
Proof.
  intros Ha Hb Hc. unfold clusterable, is_similar.
  destruct (passes_pepmass_test a b); [|by eexists].
  destruct (cosine_similarity_total a b Ha Hb Hc) as [s ->]. by eexists.
Qed.



(** Whatever [clusterable] answers [true] to passed the pepmass test. *)
Lemma clusterable_pepmass a b :
  clusterable a b = Some true → passes_pepmass_test a b = true.
Proof. unfold clusterable. by destruct (passes_pepmass_test a b). Qed.

End WalkFacts.

(** ** The bucket index *)

Section BucketFacts.
Context {F : Type} `{Arith F}.
Implicit Types a : spectrum_t F.
Implicit Types peak_buckets : gmap string (list nat).

Lemma bucketable_lookup a i p :
  bucketable a = true → (i < Nat.min 5 (num_peaks a))%nat →
  peaks a !! i = Some p → is_Some (get_peak_bucket p).
Proof.
  unfold bucketable. rewrite forallb_forall. intros Hb Hi Hp.
  eapply bool_decide_eq_true, Hb, list_elem_of_In, list_elem_of_lookup.
  exists i. by rewrite lookup_take_lt.
Qed.

Lemma bucket_of_insert peak_buckets key key' l :
  bucket_of (<[key := l]> peak_buckets) key'
  = if decide (key = key') then l else bucket_of peak_buckets key'.
Proof.
  unfold bucket_of. rewrite lookup_insert. by case_decide.
Qed.

(** Registering appends the index once for each peak read, under the
    key of that peak. *)
Lemma bucket_spectrum_peaks_spec peak_buckets a idx :
  spectrum_wf a = true → bucketable a = true →
  ∃ peak_buckets', bucket_spectrum_peaks peak_buckets a idx = Some peak_buckets' ∧
    ∀ key, bucket_of peak_buckets' key
           = bucket_of peak_buckets key ++ replicate (key_hits a key) idx.
Proof.
  intros Hwf Hb. unfold bucket_spectrum_peaks, key_hits.
  cut (∀ k, (k ≤ Nat.min 5 (num_peaks a))%nat →
    ∃ peak_buckets', for_each (seq 0 k) (λ i peak_buckets0,
        peak ← peaks a !! i; peak_str ← get_peak_bucket peak;
        Some (<[peak_str := default [] (peak_buckets0 !! peak_str) ++ [idx]]>
                peak_buckets0)) peak_buckets = Some peak_buckets' ∧
      ∀ key, bucket_of peak_buckets' key
             = bucket_of peak_buckets key ++
               replicate (length (filter (λ p, get_peak_bucket p = Some key)
                                         (take k (peaks a)))) idx).
  { intros Hloop. exact (Hloop _ (Nat.le_refl _)). }
  induction k as [|k IH]; intros Hk.
  - exists peak_buckets. split; [done|]. intros key. by rewrite take_0, app_nil_r.
  - destruct IH as (pb & Hpb & Hspec); [lia|].
    destruct (spectrum_wf_lookup a k Hwf) as [[p Hp] _]; [lia|].
    destruct (bucketable_lookup a k p Hb) as [key0 Hkey0]; [lia|done|].
    rewrite for_each_seq_S, Hpb. simpl. rewrite Hp. simpl. rewrite Hkey0. simpl.
    eexists. split; [done|]. intros key.
    rewrite bucket_of_insert, (take_S_r _ _ _ Hp), filter_app, length_app.
    fold (bucket_of pb key0). rewrite filter_cons, filter_nil.
    case_decide as Hd; subst.
    + rewrite Hspec, decide_True by done. simpl.
      rewrite <- app_assoc. f_equal.
      change [idx] with (replicate 1 idx). by rewrite <- replicate_add.
    + rewrite Hspec, decide_False by congruence. simpl. by rewrite Nat.add_0_r.
Qed.

(** The candidates are the indices stored under the keys of the peaks
    read, in strictly ascending order. *)
Lemma get_common_peak_candidates_spec peak_buckets a :
  spectrum_wf a = true → bucketable a = true →
  ∃ candidates, get_common_peak_candidates a peak_buckets = Some candidates ∧
    StronglySorted lt candidates ∧
    ∀ c, c ∈ candidates ↔
         ∃ key, (0 < key_hits a key)%nat ∧ c ∈ bucket_of peak_buckets key.
Proof.
  intros Hwf Hb. unfold get_common_peak_candidates, key_hits.
  assert (∀ k, (k ≤ Nat.min 5 (num_peaks a))%nat →
    ∃ acc, for_each (seq 0 k) (λ i candidates,
        peak ← peaks a !! i; peak_str ← get_peak_bucket peak;
        match peak_buckets !! peak_str with
        | Some bucket => Some (candidates ++ bucket)
        | None => Some candidates
        end) [] = Some acc ∧
      ∀ c, c ∈ acc ↔ ∃ key,
        (0 < length (filter (λ p, get_peak_bucket p = Some key) (take k (peaks a))))%nat
        ∧ c ∈ bucket_of peak_buckets key) as Hloop.
  { induction k as [|k IH]; intros Hk.
    - exists []. split; [done|]. intros c. rewrite take_0. simpl.
      split; [by intros ?%elem_of_nil|intros (? & ? & _); lia].
    - destruct IH as (acc & Hacc & Hspec); [lia|].
      destruct (spectrum_wf_lookup a k Hwf) as [[p Hp] _]; [lia|].
      destruct (bucketable_lookup a k p Hb) as [key0 Hkey0]; [lia|done|].
      rewrite for_each_seq_S, Hacc. simpl. rewrite Hp. simpl. rewrite Hkey0. simpl.
      exists (acc ++ bucket_of peak_buckets key0). split.
      { unfold bucket_of. destruct (peak_buckets !! key0); simpl; [done|].
        by rewrite app_nil_r. }
      intros c. rewrite elem_of_app, Hspec, (take_S_r _ _ _ Hp). split.
      + intros [(key & Hpos & Hc)|Hc].
        * exists key. split; [|done]. rewrite filter_app, length_app. lia.
        * exists key0. split; [|done]. rewrite filter_app, length_app, filter_cons.
          rewrite decide_True by done. simpl. lia.
      + intros (key & Hpos & Hc). rewrite filter_app, length_app, filter_cons in Hpos.
        case_decide as Hd.
        * right. congruence.
        * left. exists key. split; [|done]. simpl in Hpos. lia. }
  destruct (Hloop _ (Nat.le_refl _)) as (acc & -> & Hspec). simpl.
  eexists. split; [done|]. split; [apply set_of_vector_sorted|].
  intros c. by rewrite set_of_vector_elem.
Qed.

End BucketFacts.

(** ** The heuristic driver *)

Section HeuristicFacts.
Context {F : Type} `{Arith F}.
Implicit Types spectra : list (spectrum_t F).
Implicit Types si : spectrum_t F.

Lemma naive_input_ok_lookup spectra i a :
  naive_input_ok spectra = true → spectra !! i = Some a →
  spectrum_wf a = true ∧
  ∀ j b, spectra !! j = Some b → peaks_comparable a b = true.
Proof.
  unfold naive_input_ok. rewrite andb_true_iff, !forallb_forall.
  intros [Hwf Hc] Ha.
  assert (In a spectra) as Hin by (eapply list_elem_of_In, list_elem_of_lookup_2, Ha).
  split; [by apply Hwf|]. intros j b Hb.
  specialize (Hc _ Hin). rewrite forallb_forall in Hc.
  eapply Hc, list_elem_of_In, list_elem_of_lookup_2, Hb.
Qed.

Lemma input_ok_lookup spectra i a :
  input_ok spectra = true → spectra !! i = Some a →
  spectrum_wf a = true ∧ bucketable a = true ∧
  ∀ j b, spectra !! j = Some b → peaks_comparable a b = true.
Proof.
  unfold input_ok. rewrite andb_true_iff, forallb_forall. intros [Hn Hb] Ha.
  destruct (naive_input_ok_lookup _ _ _ Hn Ha) as [Hwf Hc].
  split; [done|]. split; [|done].
  eapply Hb, list_elem_of_In, list_elem_of_lookup_2, Ha.
Qed.

Lemma accepts_total spectra i si c :
  naive_input_ok spectra = true → spectra !! i = Some si →
  (c < length spectra)%nat → is_Some (accepts spectra si c).
Proof.
  intros Hok Hsi Hc. unfold accepts.
  destruct (lookup_lt_is_Some_2 spectra c Hc) as [sc Hsc]. rewrite Hsc. simpl.
  destruct (naive_input_ok_lookup _ _ _ Hok Hsi) as [Hwf Hcmp].
  destruct (naive_input_ok_lookup _ _ _ Hok Hsc) as [Hwfc _].
  apply clusterable_total; eauto.
Qed.

Lemma accepts_pepmass spectra si c :
  accepts spectra si c = Some true →
  ∃ sc, spectra !! c = Some sc ∧ passes_pepmass_test si sc = true.
Proof.
  unfold accepts. destruct (spectra !! c) as [sc|]; simpl; [|done].
  intros Hc. exists sc. split; [done|]. by apply clusterable_pepmass.
Qed.

(** The inner loop stops at the first candidate that is accepted. *)
Lemma scan_candidates_spec spectra si candidates :
  (∀ c, c ∈ candidates → is_Some (accepts spectra si c)) →
  (∃ pre c post, candidates = pre ++ c :: post ∧
      (∀ c', c' ∈ pre → accepts spectra si c' = Some false) ∧
      accepts spectra si c = Some true ∧
      scan_candidates spectra si candidates = Some (Some c)) ∨
  ((∀ c, c ∈ candidates → accepts spectra si c = Some false) ∧
   scan_candidates spectra si candidates = Some None).
Proof.
  induction candidates as [|c rest IH]; intros Htot.
  - right. split; [by intros ? ?%elem_of_nil|done].
  - destruct (Htot c) as [ok Hok]; [by left|].
    assert (scan_candidates spectra si (c :: rest)
            = if ok then Some (Some c) else scan_candidates spectra si rest) as Hscan.
    { simpl. unfold accepts in Hok. destruct (spectra !! c); simpl in *; [|done].
      by rewrite Hok. }
    rewrite Hscan. destruct ok.
    + left. exists [], c, rest. split; [done|]. split; [by intros ? ?%elem_of_nil|done].
    + destruct IH as [(pre & c' & post & -> & Hpre & Hc' & Hs)|[Hall Hs]].
      { intros ? ?. apply Htot. by right. }
      * left. exists (c :: pre), c', post. split; [done|]. split; [|done].
        intros x [->|Hx]%elem_of_cons; [done|by apply Hpre].
      * right. split; [|done]. intros x [->|Hx]%elem_of_cons; [done|by apply Hall].
Qed.

Lemma roots_below_elem (clusters : list nat) k c :
  c ∈ roots_below clusters k ↔ (c < k)%nat ∧ clusters !! c = Some c.
Proof.
  unfold roots_below. rewrite list_elem_of_filter, elem_of_seq. split; intros []; split; (done || lia).
Qed.

Lemma roots_below_S (clusters : list nat) k :
  roots_below clusters (S k)
  = roots_below clusters k ++ (if decide (clusters !! k = Some k) then [k] else []).
Proof.
  unfold roots_below. rewrite seq_S, filter_app. simpl.
  by rewrite filter_cons, filter_nil.
Qed.

Lemma roots_below_insert (clusters : list nat) k x :
  roots_below (<[k:=x]> clusters) k = roots_below clusters k.
Proof.
  unfold roots_below.
  cut (∀ m, (m ≤ k)%nat →
         filter (λ c, <[k:=x]> clusters !! c = Some c) (seq 0 m)
         = filter (λ c, clusters !! c = Some c) (seq 0 m)).
  { intros Hcut. by apply Hcut. }
  induction m as [|m IH]; intros Hm; [done|].
  rewrite !seq_S, !filter_app, IH by lia. f_equal. simpl.
  rewrite !filter_cons, !filter_nil, list_lookup_insert_ne by lia. done.
Qed.

Lemma bucket_entries spectra k st key c :
  cluster_inv spectra k st → c ∈ bucket_of st.2 key →
  (c < k)%nat ∧ st.1 !! c = Some c.
Proof.
  intros (_ & _ & _ & Hb) Hc. rewrite Hb in Hc.
  apply list_elem_of_In, in_flat_map in Hc as (c' & Hc' & Hin).
  apply list_elem_of_In, elem_of_replicate in Hin as [-> _].
  by apply roots_below_elem, list_elem_of_In.
Qed.

(** What one pass of [cluster_spectra] does. *)
Lemma cluster_step_spec spectra k st :
  input_ok spectra = true → (k < length spectra)%nat →
  cluster_inv spectra k st →
  ∃ si candidates,
    spectra !! k = Some si ∧
    get_common_peak_candidates si st.2 = Some candidates ∧
    StronglySorted lt candidates ∧
    (∀ c, c ∈ candidates ↔
          ∃ key, (0 < key_hits si key)%nat ∧ c ∈ bucket_of st.2 key) ∧
    ((∃ pre c post, candidates = pre ++ c :: post ∧
        (∀ c', c' ∈ pre → accepts spectra si c' = Some false) ∧
        accepts spectra si c = Some true ∧
        cluster_step spectra k st = Some (<[k:=c]> st.1, st.2)) ∨
     ((∀ c, c ∈ candidates → accepts spectra si c = Some false) ∧
      ∃ peak_buckets', bucket_spectrum_peaks st.2 si k = Some peak_buckets' ∧
        (∀ key, bucket_of peak_buckets' key
                = bucket_of st.2 key ++ replicate (key_hits si key) k) ∧
        cluster_step spectra k st = Some (st.1, peak_buckets'))).
Proof.
  intros Hok Hk Hinv. destruct st as [clusters peak_buckets]. simpl.
  destruct (lookup_lt_is_Some_2 spectra k Hk) as [si Hsi].
  destruct (input_ok_lookup _ _ _ Hok Hsi) as (Hwf & Hb & Hcmp).
  destruct (get_common_peak_candidates_spec peak_buckets si Hwf Hb)
    as (candidates & Hcand & Hsorted & Helem).
  exists si, candidates. do 4 (split; [done|]).
  assert (naive_input_ok spectra = true) as Hnok.
  { unfold input_ok in Hok. by apply andb_true_iff in Hok as [? _]. }
  destruct (scan_candidates_spec spectra si candidates) as
    [(pre & c & post & -> & Hpre & Hc & Hscan)|[Hall Hscan]].
  { intros c Hc. apply Helem in Hc as (key & _ & Hc).
    destruct (bucket_entries _ _ _ _ _ Hinv Hc) as [Hlt _]. simpl in Hlt.
    eapply accepts_total; eauto. lia. }
  - left. exists pre, c, post. do 3 (split; [done|]).
    unfold cluster_step. rewrite Hsi. simpl. rewrite Hcand. simpl. rewrite Hscan. simpl.
    unfold vector_write. destruct Hinv as (Hlen & _). simpl in Hlen.
    rewrite decide_True by lia. done.
  - right. split; [done|].
    destruct (bucket_spectrum_peaks_spec peak_buckets si k Hwf Hb) as (pb' & Hpb' & Hspec).
    exists pb'. do 2 (split; [done|]).
    unfold cluster_step. rewrite Hsi. simpl. rewrite Hcand. simpl. rewrite Hscan. simpl.
    by rewrite Hpb'.
Qed.

(** A pass keeps the invariant and writes at most entry [k]. *)
Lemma cluster_step_inv spectra k st :
  input_ok spectra = true → (k < length spectra)%nat →
  cluster_inv spectra k st →
  ∃ st', cluster_step spectra k st = Some st' ∧ cluster_inv spectra (S k) st' ∧
    ∀ i, i ≠ k → st'.1 !! i = st.1 !! i.
Proof.
  intros Hok Hk Hinv.
  destruct (cluster_step_spec spectra k st Hok Hk Hinv)
    as (si & candidates & Hsi & Hcand & Hsorted & Helem & Hstep).
  pose proof Hinv as (Hlen & Hid & Hroot & Hbuck).
  destruct Hstep as [(pre & c & post & -> & Hpre & Hc & Hstep)|
                     (Hall & pb' & Hpb' & Hspec & Hstep)].
  - eexists. split; [exact Hstep|]. simpl.
    assert ((c < k)%nat ∧ st.1 !! c = Some c) as [Hck Hcc].
    { destruct (Helem c) as [(key & _ & Hin) _]; [apply elem_of_app; right; by left|].
      eapply bucket_entries; eauto. }
    split; [|intros i Hi; by rewrite list_lookup_insert_ne].
    unfold cluster_inv; simpl.
    split; [by rewrite length_insert|]. split; [|split].
    + intros i Hi. rewrite list_lookup_insert_ne by lia. apply Hid. lia.
    + intros i r Hi Hr. destruct (decide (i = k)) as [->|Hne].
      * rewrite list_lookup_insert_eq in Hr by lia. inversion Hr; subst r.
        split; [lia|]. split; [by rewrite list_lookup_insert_ne by lia|].
        intros _. by exists si.
      * rewrite list_lookup_insert_ne in Hr by done.
        destruct (Hroot i r) as (Hle & Hrr & Hacc); [lia|done|].
        split; [done|]. split; [|done].
        rewrite list_lookup_insert_ne by lia. done.
    + intros key. rewrite roots_below_S, roots_below_insert.
      rewrite list_lookup_insert_eq by lia.
      rewrite decide_False by (intros [=]; lia).
      rewrite app_nil_r. apply Hbuck.
  - eexists. split; [exact Hstep|]. simpl. split; [|done].
    unfold cluster_inv; simpl.
    split; [done|]. split; [|split].
    + intros i Hi. apply Hid. lia.
    + intros i r Hi Hr. destruct (decide (i = k)) as [->|Hne].
      * rewrite Hid in Hr by lia. inversion Hr; subst r. split; [lia|].
        split; [apply Hid; lia|done].
      * apply Hroot; [lia|done].
    + intros key. rewrite Hspec, roots_below_S, Hid by lia.
      rewrite decide_True by done. rewrite flat_map_app. simpl.
      rewrite app_nil_r. unfold hits at 2. rewrite Hsi. simpl. by rewrite Hbuck.
Qed.

Lemma cluster_inv_init spectra :
  cluster_inv spectra 0 (initialize_cluster (length spectra), ∅).
Proof.
  rewrite initialize_cluster_seq. unfold cluster_inv; simpl.
  split; [by rewrite length_seq|]. split; [|split].
  - intros i Hi. simpl. by rewrite lookup_seq_lt by lia.
  - intros i r Hi. lia.
  - intros key. simpl. unfold bucket_of. by rewrite lookup_empty.
Qed.

(** The passes of [cluster_spectra] all return, and the invariant holds
    between them. *)
Lemma cluster_prefix_inv spectra k :
  input_ok spectra = true → (k ≤ length spectra)%nat →
  ∃ st, cluster_prefix k (initialize_cluster (length spectra)) spectra = Some st ∧
    cluster_inv spectra k st.
Proof.
  intros Hok. induction k as [|k IH]; intros Hk.
  - eexists. split; [done|]. apply cluster_inv_init.
  - destruct IH as (st & Hst & Hinv); [lia|].
    destruct (cluster_step_inv spectra k st Hok) as (st' & Hst' & Hinv' & _); [lia|done|].
    exists st'. split; [|done].
    unfold cluster_prefix in *. by rewrite for_each_seq_S, Hst.
Qed.

(** Later passes leave the entries of earlier ones alone. *)
Lemma cluster_prefix_stable spectra k m st st' :
  input_ok spectra = true → (k ≤ m ≤ length spectra)%nat →
  cluster_prefix k (initialize_cluster (length spectra)) spectra = Some st →
  cluster_prefix m (initialize_cluster (length spectra)) spectra = Some st' →
  ∀ i, (i < k)%nat → st'.1 !! i = st.1 !! i.
Proof.
  intros Hok. revert st'. induction m as [|m IH]; intros st' Hkm Hst Hst' i Hi; [lia|].
  destruct (decide (k = S m)) as [->|Hne]; [congruence|].
  destruct (cluster_prefix_inv spectra m Hok) as (stm & Hstm & Hinv); [lia|].
  destruct (cluster_step_inv spectra m stm Hok) as (st2 & Hst2 & _ & Hsame); [lia|done|].
  assert (st' = st2) as ->.
  { unfold cluster_prefix in *. rewrite for_each_seq_S, Hstm in Hst'. simpl in Hst'. congruence. }
  rewrite Hsame by lia. eapply IH; eauto. lia.
Qed.

Lemma cluster_spectra_prefix spectra :
  input_ok spectra = true →
  ∃ st, cluster_prefix (length spectra) (initialize_cluster (length spectra)) spectra
        = Some st ∧
    cluster_spectra (initialize_cluster (length spectra)) spectra = Some st.1 ∧
    cluster_inv spectra (length spectra) st.
Proof.
  intros Hok. destruct (cluster_prefix_inv spectra (length spectra) Hok) as (st & Hst & Hinv); [lia|].
  exists st. split; [done|]. split; [|done]. unfold cluster_spectra. by rewrite Hst.
Qed.

End HeuristicFacts.

(** ** The naive driver *)

Section NaiveFacts.
Context {F : Type} `{Arith F}.
Implicit Types spectra : list (spectrum_t F).
Implicit Types si : spectrum_t F.




(** The scan stops at the first index whose entry is accepted; entries
    already in the seen-set are known to be rejected. *)
Lemma naive_scan_spec spectra si entries seen :
  (∀ c, c ∈ entries → is_Some (accepts spectra si c)) →
  (∀ c, c ∈ seen → accepts spectra si c = Some false) →
  (∃ j c seen', entries !! j = Some c ∧ accepts spectra si c = Some true ∧
      (∀ j' c', (j' < j)%nat → entries !! j' = Some c' →
                accepts spectra si c' = Some false) ∧
      naive_scan spectra si entries seen = Some (Some c, seen')) ∨
  ((∀ c, c ∈ entries → accepts spectra si c = Some false) ∧
   naive_scan spectra si entries seen = Some (None, seen ∪ list_to_set entries)).
Proof.
  revert seen. induction entries as [|c rest IH]; intros seen Htot Hseen.
  - right. split; [by intros ? ?%elem_of_nil|]. simpl. f_equal. f_equal. set_solver.
  - simpl. case_decide as Hc.
    + destruct (IH seen) as [(j & c' & seen' & Hj & Hacc & Hbefore & Hscan)|[Hall Hscan]];
        [intros; apply Htot; by right|done|..].
      * left. exists (S j), c', seen'. split; [done|]. split; [done|]. split; [|done].
        intros [|j'] c2 Hlt Hc2; simpl in Hc2.
        -- inversion Hc2; subst. by apply Hseen.
        -- eapply Hbefore; [|done]. lia.
      * right. split.
        -- intros x [->|Hx]%elem_of_cons; [by apply Hseen|by apply Hall].
        -- rewrite Hscan. f_equal. f_equal. set_solver.
    + destruct (Htot c) as [ok Hok]; [by left|].
      pose proof Hok as Hok'. unfold accepts in Hok'.
      destruct (spectra !! c) as [sc|]; simpl in *; [|done]. rewrite Hok'. simpl.
      destruct ok.
      * left. exists 0%nat, c, seen. split; [done|]. split; [done|]. split; [|done].
        intros; lia.
      * destruct (IH ({[c]} ∪ seen))
          as [(j & c' & seen' & Hj & Hacc & Hbefore & Hscan)|[Hall Hscan]];
          [intros; apply Htot; by right| |..].
        { intros x [->%elem_of_singleton|Hx]%elem_of_union; [done|by apply Hseen]. }
        -- left. exists (S j), c', seen'. split; [done|]. split; [done|]. split; [|done].
           intros [|j'] c2 Hlt Hc2; simpl in Hc2.
           ++ by inversion Hc2; subst.
           ++ eapply Hbefore; [|done]. lia.
        -- right. split.
           ++ intros x [->|Hx]%elem_of_cons; [done|by apply Hall].
           ++ rewrite Hscan. f_equal. f_equal. set_solver.
Qed.

Lemma naive_prefix_S spectra clusters k :
  (1 ≤ k)%nat →
  naive_prefix (S k) clusters spectra
  = clusters' ← naive_prefix k clusters spectra; naive_step spectra k clusters'.
Proof.
  intros Hk. unfold naive_prefix.
  replace (S k - 1)%nat with (S (k - 1)) by lia.
  rewrite for_each_seq_S. by replace (1 + (k - 1))%nat with k by lia.
Qed.

(** What one pass of [naive_cluster_spectra] does. *)
Lemma naive_step_spec spectra k clusters :
  naive_input_ok spectra = true → (1 ≤ k < length spectra)%nat →
  naive_inv spectra k clusters →
  ∃ si, spectra !! k = Some si ∧
    ((∃ j c, (j < k)%nat ∧ clusters !! j = Some c ∧
        accepts spectra si c = Some true ∧
        (∀ j' c', (j' < j)%nat → clusters !! j' = Some c' →
                  accepts spectra si c' = Some false) ∧
        naive_step spectra k clusters = Some (<[k:=c]> clusters)) ∨
     ((∀ j c, (j < k)%nat → clusters !! j = Some c →
              accepts spectra si c = Some false) ∧
      naive_step spectra k clusters = Some clusters)).
Proof.
  intros Hok Hk (Hlen & Hid & Hroot).
  destruct (lookup_lt_is_Some_2 spectra k) as [si Hsi]; [lia|].
  exists si. split; [done|].
  unfold naive_step. rewrite Hsi. simpl. rewrite decide_True by lia.
  destruct (naive_scan_spec spectra si (take k clusters) ∅)
    as [(j & c & seen' & Hj & Hacc & Hbefore & Hscan)|[Hall Hscan]].
  { intros c [j Hj]%list_elem_of_lookup. apply lookup_take_Some in Hj as [Hj Hjk].
    destruct (Hroot j c) as (Hle & _); [done..|].
    eapply accepts_total; eauto. lia. }
  { by intros c ?%elem_of_empty. }
  - apply lookup_take_Some in Hj as [Hj Hjk].
    left. exists j, c. do 3 (split; [done|]). split.
    + intros j' c' Hlt Hc'. eapply Hbefore; [done|]. rewrite lookup_take_lt by lia. done.
    + rewrite Hscan. simpl. unfold vector_write. by rewrite decide_True by lia.
  - right. split.
    + intros j c Hj Hc. apply Hall, list_elem_of_lookup. exists j.
      by rewrite lookup_take_lt.
    + by rewrite Hscan.
Qed.

Lemma naive_step_inv spectra k clusters :
  naive_input_ok spectra = true → (1 ≤ k < length spectra)%nat →
  naive_inv spectra k clusters →
  ∃ clusters', naive_step spectra k clusters = Some clusters' ∧
    naive_inv spectra (S k) clusters' ∧
    ∀ i, i ≠ k → clusters' !! i = clusters !! i.
Proof.
  intros Hok Hk Hinv.
  destruct (naive_step_spec spectra k clusters Hok Hk Hinv)
    as (si & Hsi & [(j & c & Hj & Hjc & Hacc & _ & Hstep)|[_ Hstep]]);
    destruct Hinv as (Hlen & Hid & Hroot).
  - eexists. split; [exact Hstep|].
    destruct (Hroot j c Hj Hjc) as (Hcj & Hcc & _).
    split; [|intros i Hi; by rewrite list_lookup_insert_ne].
    split; [by rewrite length_insert|]. split.
    + intros i Hi. rewrite list_lookup_insert_ne by lia. apply Hid. lia.
    + intros i r Hi Hr. destruct (decide (i = k)) as [->|Hne].
      * rewrite list_lookup_insert_eq in Hr by lia. inversion Hr; subst r.
        split; [lia|]. split; [by rewrite list_lookup_insert_ne by lia|].
        intros _. by exists si.
      * rewrite list_lookup_insert_ne in Hr by done.
        destruct (Hroot i r) as (Hle & Hrr & Hacc'); [lia|done|].
        split; [done|]. split; [|done].
        rewrite list_lookup_insert_ne by lia. done.
  - eexists. split; [exact Hstep|]. split; [|done].
    split; [done|]. split.
    + intros i Hi. apply Hid. lia.
    + intros i r Hi Hr. destruct (decide (i = k)) as [->|Hne].
      * rewrite Hid in Hr by lia. inversion Hr; subst r. split; [lia|].
        split; [apply Hid; lia|done].
      * apply Hroot; [lia|done].
Qed.

Lemma naive_inv_init spectra :
  naive_inv spectra 1 (initialize_cluster (length spectra)).
Proof.
  rewrite initialize_cluster_seq. split; [by rewrite length_seq|]. split.
  - intros i Hi. by rewrite lookup_seq_lt by lia.
  - intros i r Hi Hr. assert (i = 0%nat) as -> by lia.
    apply lookup_seq in Hr as [-> Hlt]. simpl. split; [lia|].
    split; [by rewrite lookup_seq_lt|done].
Qed.

Lemma naive_prefix_inv spectra k :
  naive_input_ok spectra = true → (1 ≤ k ≤ length spectra)%nat →
  ∃ clusters, naive_prefix k (initialize_cluster (length spectra)) spectra
              = Some clusters ∧ naive_inv spectra k clusters.
Proof.
  intros Hok. induction k as [|k IH]; intros Hk; [lia|].
  destruct (decide (k = 0%nat)) as [->|Hne].
  - eexists. split; [done|]. apply naive_inv_init.
  - destruct IH as (cl & Hcl & Hinv); [lia|].
    destruct (naive_step_inv spectra k cl Hok) as (cl' & Hcl' & Hinv' & _); [lia|done|].
    exists cl'. split; [|done]. rewrite naive_prefix_S by lia. by rewrite Hcl.
Qed.

Lemma naive_prefix_stable spectra k m clusters clusters' :
  naive_input_ok spectra = true → (1 ≤ k ≤ m)%nat → (m ≤ length spectra)%nat →
  naive_prefix k (initialize_cluster (length spectra)) spectra = Some clusters →
  naive_prefix m (initialize_cluster (length spectra)) spectra = Some clusters' →
  ∀ i, (i < k)%nat → clusters' !! i = clusters !! i.
Proof.
  intros Hok. revert clusters'.
  induction m as [|m IH]; intros cl' Hkm Hm Hcl Hcl' i Hi; [lia|].
  destruct (decide (k = S m)) as [->|Hne]; [congruence|].
  destruct (naive_prefix_inv spectra m Hok) as (clm & Hclm & Hinv); [lia|].
  destruct (naive_step_inv spectra m clm Hok) as (cl2 & Hcl2 & _ & Hsame); [lia|done|].
  assert (cl' = cl2) as ->.
  { rewrite naive_prefix_S, Hclm in Hcl' by lia. simpl in Hcl'. congruence. }
  rewrite Hsame by lia. eapply IH; eauto; lia.
Qed.

Lemma naive_cluster_spectra_inv spectra :
  naive_input_ok spectra = true →
  ∃ clusters, naive_cluster_spectra (initialize_cluster (length spectra)) spectra
              = Some clusters ∧
    naive_inv spectra (length spectra) clusters.
Proof.
  intros Hok. unfold naive_cluster_spectra.
  destruct (decide (length spectra = 0)%nat) as [Hz|Hnz].
  - rewrite Hz. eexists. split; [done|].
    rewrite initialize_cluster_seq. simpl. split; [by rewrite Hz|].
    split; intros; lia.
  - apply naive_prefix_inv; [done|lia].
Qed.

End NaiveFacts.

(** ** The properties of the specification *)

Section Claims.
Context {F : Type} `{Arith F}.
Implicit Types spectra : list (spectrum_t F).

Lemma input_ok_naive spectra : input_ok spectra = true → naive_input_ok spectra = true.
Proof. unfold input_ok. by intros [? _]%andb_true_iff. Qed.

(** C10. When the peaks of [a] and [b] are totally ordered (each pair is
    within tolerance, or one is smaller), every pass of the loop of
    [cosine_similarity] moves a cursor forward, the loop is left after
    at most [num_peaks a + num_peaks b] passes, and [cosine_similarity]
    returns. *)
Theorem cosine_similarity_terminates (a b : spectrum_t F) :
  spectrum_wf a = true → spectrum_wf b = true → peaks_comparable a b = true →
  (∀ w, walk_guard a b w = true →
     ∃ w', walk_body a b w = Some w' ∧ (w_i w + w_j w < w_i w' + w_j w')%nat) ∧
  (∃ w, walk_loop (num_peaks a + num_peaks b) a b walk_init = Some w ∧
        walk_guard a b w = false) ∧
  is_Some (cosine_similarity a b).
Proof.
  intros Ha Hb Hc. split; [|split].
  - intros w Hg. destruct (walk_body_progress a b w Ha Hb Hc Hg) as (w' & Hw' & _ & _ & Hlt).
    by exists w'.
  - apply walk_loop_total; simpl; (done || lia).
  - by apply cosine_similarity_total.
Qed.

(** C3. On an array set up by [initialize_cluster], both
    [cluster_spectra] and [naive_cluster_spectra] return an array in
    which every entry [r] at index [i] satisfies [r <= i] and is its own
    representative. *)
Theorem representatives_are_roots spectra :
  input_ok spectra = true →
  (∃ clusters,
      cluster_spectra (initialize_cluster (length spectra)) spectra = Some clusters ∧
      length clusters = length spectra ∧
      ∀ i r, clusters !! i = Some r → (r ≤ i)%nat ∧ clusters !! r = Some r) ∧
  (∃ clusters,
      naive_cluster_spectra (initialize_cluster (length spectra)) spectra = Some clusters ∧
      length clusters = length spectra ∧
      ∀ i r, clusters !! i = Some r → (r ≤ i)%nat ∧ clusters !! r = Some r).
Proof.
  intros Hok. split.
  - destruct (cluster_spectra_prefix spectra Hok) as (st & _ & Hrun & Hlen & _ & Hroot & _).
    exists st.1. do 2 (split; [done|]). intros i r Hr.
    destruct (Hroot i r) as (? & ? & _); [|done..].
    rewrite <- Hlen. by eapply lookup_lt_Some.
  - destruct (naive_cluster_spectra_inv spectra (input_ok_naive _ Hok))
      as (cl & Hrun & Hlen & _ & Hroot).
    exists cl. do 2 (split; [done|]). intros i r Hr.
    destruct (Hroot i r) as (? & ? & _); [|done..].
    rewrite <- Hlen. by eapply lookup_lt_Some.
Qed.

(** C2, as amended. The pepmass test gates every assignment: in the
    array returned by either algorithm, a spectrum whose representative
    is another spectrum passes [passes_pepmass_test] against that
    representative. *)
Theorem pepmass_gate_on_representative spectra :
  input_ok spectra = true →
  (∃ clusters,
      cluster_spectra (initialize_cluster (length spectra)) spectra = Some clusters ∧
      ∀ i r si, clusters !! i = Some r → r ≠ i → spectra !! i = Some si →
        ∃ sr, spectra !! r = Some sr ∧ passes_pepmass_test si sr = true) ∧
  (∃ clusters,
      naive_cluster_spectra (initialize_cluster (length spectra)) spectra = Some clusters ∧
      ∀ i r si, clusters !! i = Some r → r ≠ i → spectra !! i = Some si →
        ∃ sr, spectra !! r = Some sr ∧ passes_pepmass_test si sr = true).
Proof.
  intros Hok. split.
  - destruct (cluster_spectra_prefix spectra Hok) as (st & _ & Hrun & Hlen & _ & Hroot & _).
    exists st.1. split; [done|]. intros i r si Hr Hne Hsi.
    destruct (Hroot i r) as (_ & _ & Hacc); [|done|].
    { rewrite <- Hlen. by eapply lookup_lt_Some. }
    destruct (Hacc Hne) as (si' & Hsi' & Hacc'). simplify_eq.
    by apply accepts_pepmass.
  - destruct (naive_cluster_spectra_inv spectra (input_ok_naive _ Hok))
      as (cl & Hrun & Hlen & _ & Hroot).
    exists cl. split; [done|]. intros i r si Hr Hne Hsi.
    destruct (Hroot i r) as (_ & _ & Hacc); [|done|].
    { rewrite <- Hlen. by eapply lookup_lt_Some. }
    destruct (Hacc Hne) as (si' & Hsi' & Hacc'). simplify_eq.
    by apply accepts_pepmass.
Qed.



(** C8, as amended. Throughout a run of [cluster_spectra] the bucket
    stored under a key lists, in ascending order, the indices already
    processed that stayed their own representative, each repeated once
    for every peak read from its spectrum that has this key: the list is
    non-decreasing, holds only own representatives, and holds an index
    [key_hits] times (up to five) rather than once. Duplicates are
    dropped at lookup only. *)
Theorem bucket_index_contents spectra (k : nat) :
  input_ok spectra = true → (k ≤ length spectra)%nat →
  ∃ final clusters peak_buckets,
    cluster_spectra (initialize_cluster (length spectra)) spectra = Some final ∧
    cluster_prefix k (initialize_cluster (length spectra)) spectra
      = Some (clusters, peak_buckets) ∧
    ∀ key,
      bucket_of peak_buckets key
        = flat_map (λ c, replicate (hits spectra key c) c) (roots_below final k) ∧
      Sorted le (bucket_of peak_buckets key) ∧
      (∀ c, c ∈ bucket_of peak_buckets key → (c < k)%nat ∧ final !! c = Some c) ∧
      (∀ c, (hits spectra key c ≤ 5)%nat).
Proof.
  intros Hok Hk.
  destruct (cluster_spectra_prefix spectra Hok) as (stn & Hstn & Hrun & Hinvn).
  destruct (cluster_prefix_inv spectra k Hok Hk) as (st & Hst & Hinv).
  assert (roots_below stn.1 k = roots_below st.1 k) as Hroots.
  { unfold roots_below.
    cut (∀ m, (m ≤ k)%nat →
           filter (λ c, stn.1 !! c = Some c) (seq 0 m)
           = filter (λ c, st.1 !! c = Some c) (seq 0 m)).
    { intros Hcut. by apply Hcut. }
    induction m as [|m IH]; intros Hm; [done|].
    rewrite !seq_S, !filter_app, IH by lia. f_equal. simpl.
    rewrite !filter_cons, !filter_nil.
    by rewrite (cluster_prefix_stable spectra k (length spectra) st stn Hok) by (done || lia). }
  destruct st as [clusters peak_buckets]. simpl in *.
  exists stn.1, clusters, peak_buckets. do 2 (split; [done|]).
  intros key. pose proof Hinv as (_ & _ & _ & Hbuck). simpl in Hbuck.
  split; [by rewrite Hroots|]. split; [|split].
  - rewrite Hbuck. unfold roots_below.
    generalize 0%nat as start. generalize k as m.
    induction m as [|m IH]; intros start; [constructor|].
    simpl. rewrite filter_cons. case_decide; [|apply IH]. simpl.
    assert (∀ n l, Sorted le l → (∀ x, x ∈ l → (start ≤ x)%nat) →
              Sorted le (replicate n start ++ l)) as Hrep.
    { induction n as [|n IHn]; intros l Hl Hx; [done|]. simpl.
      constructor; [by apply IHn|].
      destruct n; simpl; [|by constructor].
      destruct l; constructor. apply Hx. by left. }
    apply Hrep; [apply IH|]. intros x Hx.
    apply list_elem_of_In, in_flat_map in Hx as (c & Hc & Hin).
    apply list_elem_of_In, elem_of_replicate in Hin as [-> _].
    apply list_elem_of_In, list_elem_of_filter in Hc as [_ Hc].
    apply elem_of_seq in Hc. lia.
  - intros c Hc.
    destruct (bucket_entries spectra k (clusters, peak_buckets) key c Hinv Hc) as [Hck Hcc].
    split; [done|]. simpl in Hcc.
    by rewrite (cluster_prefix_stable spectra k (length spectra) _ stn Hok ltac:(lia) Hst Hstn).
  - intros c. unfold hits, key_hits. destruct (spectra !! c) as [a|]; simpl; [|lia].
    pose proof (length_filter (λ p, get_peak_bucket p = Some key)
                  (take (Nat.min 5 (num_peaks a)) (peaks a))) as Hle.
    rewrite length_take in Hle. etransitivity; [exact Hle|]. clear. lia.
Qed.



End Claims.

(** ** Binary32: finite peaks are totally ordered *)

Module B32Facts.
Import B32.

Lemma SFcompare_finite_antisym (x y : spec_float) :
  is_finite x = true → is_finite y = true →
  ∃ c, SFcompare x y = Some c ∧ SFcompare y x = Some (CompOpp c).
Proof.
  destruct x as [sx|sx| |sx mx ex], y as [sy|sy| |sy my ey]; try done; intros _ _; simpl.
  - by exists Eq.
  - eexists. split; [done|]. by destruct sy.
  - eexists. split; [done|]. by destruct sx.
  - eexists. split; [done|].
    destruct sx, sy; simpl; try done;
      rewrite (Z.compare_antisym ex ey); destruct (ex ?= ey)%Z; simpl; try done;
      rewrite (Pos.compare_cont_antisym mx my Eq); simpl;
      by destruct (Pos.compare_cont Eq mx my).
Qed.

Lemma SFcompare_Eq_sub (x y : spec_float) :
  is_finite x = true → is_finite y = true → SFcompare x y = Some Eq →
  ∃ s, SFsub prec emax x y = S754_zero s.
Proof.
  destruct x as [sx|sx| |sx mx ex], y as [sy|sy| |sy my ey]; try done; intros _ _; simpl.
  - intros _. destruct sx, sy; by eexists.
  - by destruct sy.
  - by destruct sx.
  - intros Hc. assert (sx = sy ∧ ex = ey ∧ mx = my) as (-> & -> & ->).
    { destruct sx, sy; try done; destruct (ex ?= ey)%Z eqn:He; try done;
        apply Z.compare_eq in He; subst;
        (destruct (Pos.compare_cont Eq mx my) eqn:Hm; try done);
        apply Pos.compare_eq in Hm; by subst. }
    rewrite Z.sub_diag. by eexists.
Qed.

Lemma finite_trichotomy (x y : spec_float) :
  is_finite x = true → is_finite y = true →
  is_identical_peak x y || f_lt x y || f_lt y x = true.
Proof.
  intros Hx Hy. destruct (SFcompare_finite_antisym x y Hx Hy) as (c & Hxy & Hyx).
  simpl. unfold SFltb. rewrite Hxy, Hyx. destruct c; simpl.
  - destruct (SFcompare_Eq_sub x y Hx Hy Hxy) as [s Hs].
    unfold is_identical_peak. simpl. rewrite Hs. done.
  - by rewrite orb_true_r.
  - by rewrite orb_true_r.
Qed.

(** Spectra whose peaks are finite floats satisfy [peaks_comparable]. *)
Lemma finite_peaks_comparable (a b : spectrum_t spec_float) :
  forallb is_finite (peaks a) = true → forallb is_finite (peaks b) = true →
  peaks_comparable a b = true.
Proof.
  rewrite !forallb_forall. intros Ha Hb. unfold peaks_comparable.
  apply forallb_forall. intros pa Hpa. apply forallb_forall. intros pb Hpb.
  apply finite_trichotomy.
  - apply Ha. apply list_elem_of_In. apply list_elem_of_In in Hpa.
    apply list_elem_of_lookup in Hpa as [i [Hi _]%lookup_take_Some].
    by eapply list_elem_of_lookup_2.
  - apply Hb. apply list_elem_of_In. apply list_elem_of_In in Hpb.
    apply list_elem_of_lookup in Hpb as [j [Hj _]%lookup_take_Some].
    by eapply list_elem_of_lookup_2.
Qed.

End B32Facts.

(** ** Rounding in [SpecFloat] *)

Section Rounding.
Local Open Scope Z_scope.

Lemma digits2_pos_log2 (p : positive) :
  Zpos (digits2_pos p) = Z.log2 (Zpos p) + 1.
Proof.
  assert (∀ q, digits2_pos q = Pos.size q) as Hsize.
  { induction q; simpl; by f_equal. }
  rewrite Hsize. destruct p; simpl; lia.
Qed.

Lemma digits2_lt_pow2 (p : positive) (k : Z) :
  0 ≤ k → (Zpos (digits2_pos p) ≤ k ↔ Zpos p < 2 ^ k).
Proof.
  intros Hk. rewrite digits2_pos_log2, Z.log2_lt_pow2 by lia. lia.
Qed.

Lemma iter_pos_nat {A : Type} (f : A → A) (p : positive) (x : A) :
  SpecFloat.iter_pos f p x = Nat.iter (Pos.to_nat p) f x.
Proof.
  revert x. induction p as [p IH|p IH|]; intros x.
  - rewrite Pos2Nat.inj_xI. cbn [SpecFloat.iter_pos]. rewrite !IH.
    replace (S (2 * Pos.to_nat p)) with (Pos.to_nat p + (Pos.to_nat p + 1))%nat by lia.
    by rewrite !Nat.iter_add.
  - rewrite Pos2Nat.inj_xO. cbn [SpecFloat.iter_pos]. rewrite !IH.
    replace (2 * Pos.to_nat p)%nat with (Pos.to_nat p + Pos.to_nat p)%nat by lia.
    by rewrite Nat.iter_add.
  - done.
Qed.

Lemma shr_steps_S (m : Z) (k : nat) (mrs : shr_record) :
  shr_steps m k mrs → shr_steps m (S k) (shr_1 mrs).
Proof.
  destruct mrs as [m' r s]. intros (Hm' & t & Ht & Heq & Hk0 & Hk1 & Hs).
  cbn [shr_m shr_r shr_s] in *.
  assert (2 ^ Z.of_nat (S k) = 2 * 2 ^ Z.of_nat k) as Hpow.
  { rewrite Nat2Z.inj_succ, Z.pow_succ_r by lia. done. }
  assert (Z.of_nat (S k) - 1 = Z.of_nat k) as Hpred by lia.
  assert (0 < 2 ^ Z.of_nat k) as Hpos by (apply Z.pow_pos_nonneg; lia).
  set (R := if r then 2 ^ (Z.of_nat k - 1) else 0) in *.
  assert (0 ≤ R ∧ R + t < 2 ^ Z.of_nat k ∧ (r || s = true ↔ 0 < R + t))
    as (HR0 & HR1 & HR2).
  { destruct k as [|k].
    - destruct Hk0 as [-> ->]; [done|]. subst R. cbn [orb].
      split; [lia|]. split; [lia|]. rewrite Hs. lia.
    - assert (2 ^ Z.of_nat (S k) = 2 * 2 ^ (Z.of_nat (S k) - 1)) as Hp2.
      { rewrite <- Z.pow_succ_r by lia. f_equal. lia. }
      assert (0 < 2 ^ (Z.of_nat (S k) - 1)) by (apply Z.pow_pos_nonneg; lia).
      specialize (Hk1 ltac:(done)). subst R. destruct r; cbn [orb].
      + split; [lia|]. split; [lia|]. split; [lia|done].
      + split; [lia|]. split; [lia|]. rewrite Hs. lia. }
  unfold shr_steps. rewrite Hpred, Hpow.
  destruct m' as [|[p|p|]|p]; cbn [shr_1 shr_m shr_r shr_s]; try lia.
  - split; [done|]. exists (R + t). repeat split; try lia; try apply HR2; try done.
  - split; [lia|]. exists (R + t). rewrite Pos2Z.inj_xI in Heq.
    repeat split; try lia; try apply HR2; try done.
  - split; [lia|]. exists (R + t). rewrite Pos2Z.inj_xO in Heq.
    repeat split; try lia; try apply HR2; try done.
  - split; [lia|]. exists (R + t).
    repeat split; try lia; try apply HR2; try done.
Qed.

Lemma shr_steps_iter (m : Z) (k : nat) :
  0 ≤ m →
  shr_steps m k (Nat.iter k shr_1 (Build_shr_record m false false)).
Proof.
  intros Hm. induction k as [|k IH].
  - split; [done|]. exists 0. cbn. repeat split; try lia; try done.
  - cbn [Nat.iter nat_rect]. by apply shr_steps_S.
Qed.

Lemma shr_steps_pos (m : Z) (p : positive) :
  0 ≤ m →
  shr_steps m (Pos.to_nat p) (SpecFloat.iter_pos shr_1 p (Build_shr_record m false false)).
Proof. intros Hm. rewrite iter_pos_nat. by apply shr_steps_iter. Qed.

Lemma shr_steps_quotient (m : Z) (p : positive) (mrs : shr_record) :
  shr_steps m (Pos.to_nat p) mrs →
  shr_m mrs = m / 2 ^ Zpos p ∧
  (shr_m mrs = 0 →
     (round_nearest_even (shr_m mrs) (loc_of_shr_record mrs) = 0
      ↔ m ≤ 2 ^ (Zpos p - 1))) ∧
  shr_m mrs ≤ round_nearest_even (shr_m mrs) (loc_of_shr_record mrs).
Proof.
  destruct mrs as [m' r s]. intros (Hm' & t & Ht & Heq & _ & Hk1 & Hs).
  cbn [shr_m shr_r shr_s] in *. rewrite positive_nat_Z in *.
  specialize (Hk1 ltac:(lia)).
  assert (2 ^ Zpos p = 2 * 2 ^ (Zpos p - 1)) as Hp2.
  { rewrite <- Z.pow_succ_r by lia. f_equal. lia. }
  assert (0 < 2 ^ (Zpos p - 1)) as Hpos by (apply Z.pow_pos_nonneg; lia).
  split; [|split].
  - apply (Z.div_unique_pos _ _ _ ((if r then 2 ^ (Zpos p - 1) else 0) + t)).
    + destruct r; lia.
    + lia.
  - intros ->. destruct r, s; cbn.
    + assert (0 < t) by (by apply Hs). lia.
    + assert (¬ 0 < t) by (rewrite <- Hs; done). lia.
    + lia.
    + lia.
  - destruct r, s; cbn; try lia; destruct (Z.even m'); lia.
Qed.

Variables prec emax : Z.
Hypothesis prec_pos : 0 < prec.

Lemma fexp_ge_emin (e : Z) : emin prec emax ≤ fexp prec emax e.
Proof. unfold fexp. lia. Qed.

Lemma Zdigits2_log2 (m : Z) : 0 < m → Zdigits2 m = Z.log2 m + 1.
Proof. destruct m as [|p|p]; try lia. intros _. apply digits2_pos_log2. Qed.

(** The first shift and the rounding of [binary_round_aux] on an exact
    mantissa. *)
Lemma round_first_stage (m : positive) (e : Z) (mrs1 : shr_record) (e1 : Z) :
  shr_fexp prec emax (Zpos m) e loc_Exact = (mrs1, e1) →
  let m1 := round_nearest_even (shr_m mrs1) (loc_of_shr_record mrs1) in
  emin prec emax ≤ e1 ∧ 0 ≤ m1 ∧
  (m1 = 0 ↔ Zpos m ≤ 2 ^ (emin prec emax - 1 - e)) ∧
  (0 < m1 → Zpos (digits2_pos m) + e ≤ Zdigits2 m1 + e1).
Proof.
  unfold shr_fexp, shr. cbn [Zdigits2 shr_record_of_loc].
  set (d := Zpos (digits2_pos m)).
  assert (0 < d) as Hd by (unfold d; lia).
  assert (Zpos m < 2 ^ d) as Hlt by (apply digits2_lt_pow2; unfold d; lia).
  assert (2 ^ (d - 1) ≤ Zpos m) as Hge.
  { unfold d. rewrite digits2_pos_log2. replace (_ + 1 - 1) with (Z.log2 (Zpos m)) by lia.
    apply Z.log2_spec. lia. }
  pose proof (fexp_ge_emin (d + e)) as Hfe.
  assert (∀ k, k < 0 → 2 ^ k = 0) as Hneg by (intros; by apply Z.pow_neg_r).
  destruct (fexp prec emax (d + e) - e) as [|p|p] eqn:Hn.
  - intros [= <- <-]. cbn. split; [lia|]. split; [lia|]. split; [|fold d; lia].
    split; [lia|]. rewrite Hneg by lia. lia.
  - intros [= <- <-].
    destruct (shr_steps_quotient (Zpos m) p _ (shr_steps_pos (Zpos m) p ltac:(lia)))
      as (Hq & Hz & Hle).
    set (mrs := SpecFloat.iter_pos shr_1 p _) in *.
    pose proof (Z.div_pos (Zpos m) (2 ^ Zpos p) ltac:(lia) ltac:(apply Z.pow_pos_nonneg; lia)) as Hq0.
    split; [lia|]. split; [lia|]. split.
    + split.
      * intros Hm1. assert (shr_m mrs = 0) as Hm0 by lia.
        apply Hz in Hm1; [|done].
        assert (Zpos m < 2 ^ Zpos p) as Hsmall.
        { rewrite Hq in Hm0. apply Z.div_small_iff in Hm0; [lia|].
          apply Z.pow_nonzero; lia. }
        assert (d ≤ Zpos p) as Hdp.
        { apply digits2_lt_pow2; [lia|done]. }
        assert (fexp prec emax (d + e) = emin prec emax) as Hfexp by (unfold fexp in *; lia).
        replace (emin prec emax - 1 - e) with (Zpos p - 1) by lia. done.
      * intros Hsmall.
        assert (0 ≤ emin prec emax - 1 - e) as Hnn.
        { destruct (Z.le_gt_cases 0 (emin prec emax - 1 - e)); [done|]. rewrite Hneg in Hsmall by lia. lia. }
        assert (d ≤ emin prec emax - e) as Hde.
        { apply digits2_lt_pow2; [lia|].
          replace (emin prec emax - e) with (Z.succ (emin prec emax - 1 - e)) by lia.
          rewrite Z.pow_succ_r by lia. lia. }
        assert (fexp prec emax (d + e) = emin prec emax) as Hfexp by (unfold fexp in *; lia).
        assert (Zpos p = emin prec emax - e) as Hp by lia.
        assert (shr_m mrs = 0) as Hm0.
        { rewrite Hq. apply Z.div_small. split; [lia|]. rewrite Hp.
          replace (emin prec emax - e) with (Z.succ (emin prec emax - 1 - e)) by lia.
          rewrite Z.pow_succ_r by lia.
          assert (0 < 2 ^ (emin prec emax - 1 - e)) by (apply Z.pow_pos_nonneg; lia). lia. }
        apply Hz; [done|]. by replace (Zpos p - 1) with (emin prec emax - 1 - e) by lia.
    + intros Hpos.
      destruct (Z.eq_dec (shr_m mrs) 0) as [Hm0|Hm0].
      * assert (Zpos m < 2 ^ Zpos p) as Hsmall.
        { rewrite Hq in Hm0. apply Z.div_small_iff in Hm0; [lia|].
          apply Z.pow_nonzero; lia. }
        assert (d ≤ Zpos p) as Hdp by (apply digits2_lt_pow2; [lia|done]).
        rewrite Zdigits2_log2 by done.
        pose proof (Z.log2_nonneg (round_nearest_even (shr_m mrs) (loc_of_shr_record mrs))).
        lia.
      * assert (0 < shr_m mrs) as Hm1 by lia.
        rewrite Zdigits2_log2 by done.
        pose proof (Z.log2_le_mono _ _ Hle) as Hmono.
        assert (Z.log2 (shr_m mrs) = Z.log2 (Zpos m) - Zpos p) as Hlog.
        { rewrite Hq, <- Z.shiftr_div_pow2 by lia. rewrite Z.log2_shiftr by lia.
          assert (2 ^ Zpos p ≤ Zpos m) as Hbig.
          { destruct (Z.le_gt_cases (2 ^ Zpos p) (Zpos m)); [done|].
            rewrite Hq, Z.div_small in Hm1 by lia. lia. }
          apply Z.log2_le_pow2 in Hbig; lia. }
        unfold d. rewrite digits2_pos_log2. lia.
  - intros [= <- <-]. cbn. split; [lia|]. split; [lia|]. split; [|fold d; lia].
    split; [lia|]. rewrite Hneg by lia. lia.
Qed.

(** The second shift of [binary_round_aux] keeps the magnitude. *)
Lemma round_second_stage (m1 e1 : Z) (mrs2 : shr_record) (e2 : Z) :
  0 ≤ m1 → emin prec emax ≤ e1 →
  shr_fexp prec emax m1 e1 loc_Exact = (mrs2, e2) →
  (m1 = 0 → shr_m mrs2 = 0) ∧
  (0 < m1 → 0 < shr_m mrs2 ∧ e1 ≤ e2 ∧
            Zdigits2 (shr_m mrs2) + e2 = Zdigits2 m1 + e1).
Proof.
  intros Hm1 He1. unfold shr_fexp, shr. cbn [shr_record_of_loc].
  destruct (fexp prec emax (Zdigits2 m1 + e1) - e1) as [|q|q] eqn:Hn.
  - intros [= <- <-]. cbn. split; [done|]. intros; lia.
  - intros [= <- <-].
    destruct (shr_steps_quotient m1 q _ (shr_steps_pos m1 q Hm1)) as (Hq & _ & _).
    set (mrs := SpecFloat.iter_pos shr_1 q _) in *. split.
    + intros ->. by rewrite Hq, Z.div_0_l by (apply Z.pow_nonzero; lia).
    + intros Hpos. rewrite Zdigits2_log2 in Hn by done.
      assert (Zpos q = Z.log2 m1 + 1 - prec) as Hqv by (unfold fexp in Hn; lia).
      assert (Z.log2 (shr_m mrs) = Z.log2 m1 - Zpos q) as Hlog.
      { rewrite Hq, <- Z.shiftr_div_pow2 by lia. rewrite Z.log2_shiftr by lia. lia. }
      assert (0 < shr_m mrs) as Hpos2.
      { rewrite Hq. apply Z.div_str_pos. split; [apply Z.pow_pos_nonneg; lia|].
        etransitivity; [|apply Z.log2_spec; lia].
        apply Z.pow_le_mono_r; lia. }
      split; [done|]. split; [lia|]. rewrite !Zdigits2_log2 by done. lia.
  - intros [= <- <-]. cbn. split; [done|]. intros; lia.
Qed.

(** Rounding an exact positive value: the result carries the sign, is
    zero exactly when the value is at most half the smallest positive
    number of the format, and otherwise has an exponent of the format
    and at least the magnitude of the value. *)
Lemma binary_round_aux_exact (sx : bool) (m : positive) (e : Z) :
  let r := binary_round_aux prec emax sx (Zpos m) e loc_Exact in
  (r = S754_zero sx ↔ Zpos m ≤ 2 ^ (emin prec emax - 1 - e)) ∧
  match r with
  | S754_zero s | S754_infinity s => s = sx
  | S754_nan => False
  | S754_finite s M E =>
      s = sx ∧ emin prec emax ≤ E ∧
      Zpos (digits2_pos m) + e ≤ Zpos (digits2_pos M) + E
  end.
Proof.
  unfold binary_round_aux.
  destruct (shr_fexp prec emax (Zpos m) e loc_Exact) as [mrs1 e1] eqn:H1.
  destruct (round_first_stage m e mrs1 e1 H1) as (He1 & Hm1 & Hzero & Hmag).
  set (m1 := round_nearest_even (shr_m mrs1) (loc_of_shr_record mrs1)) in *.
  destruct (shr_fexp prec emax m1 e1 loc_Exact) as [mrs2 e2] eqn:H2.
  destruct (round_second_stage m1 e1 mrs2 e2 Hm1 He1 H2) as (Hz2 & Hp2).
  destruct (Z.eq_dec m1 0) as [Hm0|Hm0].
  - rewrite (Hz2 Hm0). cbn. split; [|done]. split; [intros _; by apply Hzero|done].
  - destruct Hp2 as (Hpos & He2 & Hmag2); [lia|].
    destruct (shr_m mrs2) as [|M|M] eqn:HM; try lia.
    assert (¬ Zpos m ≤ 2 ^ (emin prec emax - 1 - e)) as Hnz by (rewrite <- Hzero; lia).
    destruct (e2 <=? emax - prec); cbn.
    + split; [split; [done|lia]|]. split; [done|]. split; [lia|].
      cbn [Zdigits2] in Hmag2. specialize (Hmag ltac:(lia)). lia.
    + split; [split; [done|lia]|done].
Qed.

End Rounding.

(** ** Binary32: sums of squares that are zero *)

Module B32Zero.
Import B32.
Local Open Scope Z_scope.

Lemma shl_align_spec (m : positive) (e e' : Z) :
  let '(mz, ez) := shl_align m e e' in
  (ez = e ∨ ez = e') ∧ ez ≤ e ∧ Zpos mz = Zpos m * 2 ^ (e - ez) ∧
  Zpos (digits2_pos mz) + ez = Zpos (digits2_pos m) + e ∧
  (e' ≤ e → ez = e').
Proof.
  unfold shl_align. destruct (e' - e) as [|d|d] eqn:Hd.
  - rewrite Z.sub_diag. cbn. lia.
  - rewrite Z.sub_diag. cbn. lia.
  - assert (e - e' = Zpos d) as -> by lia.
    pose proof (shift_pos_correct d m) as Hs. unfold shift_pos in Hs.
    assert (Zpos (Pos.iter xO m d) = Zpos m * 2 ^ Zpos d) as Heq.
    { rewrite Hs. change (Zpower_pos 2 d) with (2 ^ Zpos d). lia. }
    split; [by right|]. split; [lia|]. split; [done|]. split; [|lia].
    rewrite !digits2_pos_log2, Heq, Z.log2_mul_pow2 by lia. lia.
Qed.

Lemma valid_finite_bounds (s : bool) (m : positive) (e : Z) :
  valid_binary prec emax (S754_finite s m e) = true →
  Zpos m < 2 ^ 24 ∧ -149 ≤ e ≤ 104.
Proof.
  unfold valid_binary, bounded, canonical_mantissa, fexp, emin, prec, emax.
  intros [He Hle]%andb_true_iff. apply Z.eqb_eq in He. apply Z.leb_le in Hle.
  split; [|lia]. apply digits2_lt_pow2; lia.
Qed.

(** The square of a [float] is exact in [double]. *)
Lemma pow2_finite (s : bool) (m : positive) (e : Z) :
  valid_binary prec emax (S754_finite s m e) = true →
  pow2 (S754_finite s m e) = S754_finite false (m * m) (e + e).
Proof.
  intros (Hm & He)%valid_finite_bounds.
  unfold pow2, SFmul, binary_round_aux. rewrite xorb_nilpotent.
  assert (Zpos (digits2_pos (m * m)) ≤ 48) as Hd.
  { apply digits2_lt_pow2; [lia|]. rewrite Pos2Z.inj_mul.
    change (2 ^ 48) with (2 ^ 24 * 2 ^ 24). nia. }
  assert (shr_fexp 53 1024 (Zpos (m * m)) (e + e) loc_Exact
          = (Build_shr_record (Zpos (m * m)) false false, e + e)) as Hshr.
  { unfold shr_fexp, shr. cbn [Zdigits2 shr_record_of_loc].
    destruct (fexp 53 1024 (Zpos (digits2_pos (m * m)) + (e + e)) - (e + e)) eqn:Hn;
      try done. unfold fexp, emin in Hn. lia. }
  rewrite Hshr. cbn [shr_m loc_of_shr_record round_nearest_even]. rewrite Hshr.
  cbn [shr_m]. rewrite (proj2 (Z.leb_le _ _)) by lia. done.
Qed.

(** Storing a positive [double] into a [float]. *)
Lemma narrow_finite (M : positive) (E : Z) :
  let r := narrow (S754_finite false M E) in
  (r = S754_zero false ∧ Zpos M ≤ 2 ^ (-150 - E)) ∨
  (positive_den r ∧ ¬ Zpos M ≤ 2 ^ (-150 - E)).
Proof.
  unfold narrow, binary_round.
  pose proof (shl_align_spec M E (fexp prec emax (Zpos (digits2_pos M) + E))) as Hal.
  destruct (shl_align M E _) as [mz ez].
  destruct Hal as (Hcase & Hle & Hmz & Hmag & Hshift).
  destruct (binary_round_aux_exact prec emax ltac:(done) false mz ez) as [Hzero Hres].
  change (emin prec emax) with (-149) in *.
  pose proof (fexp_ge_emin prec emax (Zpos (digits2_pos M) + E)) as Hfe.
  change (emin prec emax) with (-149) in Hfe.
  assert (Zpos mz ≤ 2 ^ (-149 - 1 - ez) ↔ Zpos M ≤ 2 ^ (-150 - E)) as Hiff.
  { destruct (Z.le_gt_cases (fexp prec emax (Zpos (digits2_pos M) + E)) E) as [Hc|Hc].
    - rewrite (Hshift Hc). rewrite (Z.pow_neg_r 2 (-149 - 1 - _)) by lia.
      rewrite (Z.pow_neg_r 2 (-150 - E)) by lia. lia.
    - destruct Hcase as [->| ->]; [|lia].
      rewrite Z.sub_diag, Z.mul_1_r in Hmz. rewrite Hmz.
      by replace (-149 - 1 - E) with (-150 - E) by lia. }
  destruct (binary_round_aux prec emax false (Zpos mz) ez loc_Exact) as [s|s| |s M' E'] eqn:Hr.
  - subst s. left. split; [done|]. apply Hiff, Hzero. done.
  - subst s. right. split; [done|]. rewrite <- Hiff, <- Hzero. done.
  - done.
  - destruct Hres as (-> & HE & _). right. split; [done|].
    rewrite <- Hiff, <- Hzero. done.
Qed.

Lemma narrow_big (M : positive) (E : Z) :
  -148 ≤ Zpos (digits2_pos M) + E → positive_den (narrow (S754_finite false M E)).
Proof.
  intros Hmag. destruct (narrow_finite M E) as [[_ Hsmall]|[Hpos _]]; [|done].
  exfalso.
  destruct (Z.le_gt_cases 0 (-150 - E)) as [Hnn|Hneg];
    [|rewrite Z.pow_neg_r in Hsmall by lia; lia].
  assert (Zpos (digits2_pos M) ≤ -150 - E + 1); [|lia].
  apply digits2_lt_pow2; [lia|]. rewrite Z.pow_add_r by lia. lia.
Qed.

Lemma pow2_cases (x : spec_float) :
  valid_binary prec emax x = true →
  match x with
  | S754_zero _ => pow2 x = S754_zero false
  | S754_infinity _ => pow2 x = S754_infinity false
  | S754_nan => pow2 x = S754_nan
  | S754_finite _ m e => pow2 x = S754_finite false (m * m) (e + e)
  end.
Proof.
  destruct x as [s|s| |s m e]; intros Hv.
  - by destruct s.
  - by destruct s.
  - done.
  - by apply pow2_finite.
Qed.

(** The sum of two positive [double]s has at least the magnitude of the
    first. *)
Lemma add_double_finite (md : positive) (ed : Z) (my : positive) (ey : Z) :
  -149 ≤ ed →
  positive_den (narrow (SFadd 53 1024 (S754_finite false md ed)
                                      (S754_finite false my ey))).
Proof.
  intros Hed. cbn [SFadd cond_Zopp].
  pose proof (shl_align_spec md ed (Z.min ed ey)) as Ha.
  pose proof (shl_align_spec my ey (Z.min ed ey)) as Hb.
  destruct (shl_align md ed (Z.min ed ey)) as [a ea].
  destruct (shl_align my ey (Z.min ed ey)) as [b eb]. cbn [fst].
  destruct Ha as (_ & _ & _ & Hmaga & Hea). destruct Hb as (_ & _ & _ & _ & Heb).
  rewrite Hea in Hmaga by lia.
  change (Zpos a + Zpos b) with (Zpos (a + b)). cbn [binary_normalize].
  unfold binary_round.
  set (ez := Z.min ed ey) in *.
  pose proof (shl_align_spec (a + b) ez (fexp 53 1024 (Zpos (digits2_pos (a + b)) + ez)))
    as Hal.
  destruct (shl_align (a + b) ez _) as [mz ez'].
  destruct Hal as (_ & _ & _ & Hmag & _).
  assert (Zpos (digits2_pos a) ≤ Zpos (digits2_pos (a + b))) as Hmono.
  { rewrite !digits2_pos_log2. pose proof (Z.log2_le_mono (Zpos a) (Zpos (a + b))). lia. }
  destruct (binary_round_aux_exact 53 1024 ltac:(done) false mz ez') as [Hzero Hres].
  change (emin 53 1024) with (-1074) in *.
  destruct (binary_round_aux 53 1024 false (Zpos mz) ez' loc_Exact) as [s|s| |s M E] eqn:Hr.
  - exfalso. assert (Zpos mz ≤ 2 ^ (-1074 - 1 - ez')) as Hsmall by (by apply Hzero; subst).
    destruct (Z.le_gt_cases 0 (-1074 - 1 - ez')) as [Hnn|Hneg];
      [|rewrite Z.pow_neg_r in Hsmall by lia; lia].
    assert (Zpos (digits2_pos mz) ≤ -1074 - 1 - ez' + 1); [|lia].
    apply digits2_lt_pow2; [lia|]. rewrite Z.pow_add_r by lia. lia.
  - by subst s.
  - done.
  - destruct Hres as (-> & _ & HmagM). apply narrow_big. lia.
Qed.

(** One accumulation step: the sum stays [+0] or positive, and it stays
    [+0] only from [+0] and with a square that vanishes. *)
Lemma add_pow2_spec (d x : spec_float) :
  den_ok d → valid_binary prec emax x = true →
  den_ok (add_pow2 d x) ∧
  (is_zero (add_pow2 d x) = true → d = S754_zero false ∧ vanishing_square x).
Proof.
  intros Hd Hx. unfold add_pow2. pose proof (pow2_cases x Hx) as Hp.
  destruct Hd as [->|Hd].
  - destruct x as [s|s| |s m e]; rewrite Hp; cbn [SFadd].
    + split; [by left|done].
    + split; [by right|done].
    + split; [by right|done].
    + destruct (narrow_finite (m * m) (e + e)) as [[-> Hsmall]|[Hpos _]].
      * split; [by left|]. intros _. split; [done|]. cbn.
        by replace (-150 - 2 * e) with (-150 - (e + e)) by lia.
      * split; [by right|]. intros Hz. exfalso.
        by destruct (narrow _) as [|[]| |[]].
  - assert (positive_den (narrow (SFadd 53 1024 d (pow2 x)))) as Hbig.
    { destruct d as [sd|[]| |[] md ed]; try done;
        destruct x as [s|s| |s m e]; rewrite Hp; cbn [SFadd]; try done.
      - apply narrow_big. cbn in Hd. lia.
      - by apply add_double_finite. }
    split; [by right|]. intros Hz. exfalso.
    by destruct (narrow _) as [|[]| |[]].
Qed.

Lemma mul_vanishing (x y : spec_float) :
  vanishing_square x → vanishing_square y →
  is_zero (SFmul prec emax x y) = true.
Proof.
  destruct x as [sx|sx| |sx mx ex], y as [sy|sy| |sy my ey]; try done.
  cbn [vanishing_square SFmul]. intros Hx Hy.
  destruct (binary_round_aux_exact prec emax ltac:(done) (xorb sx sy) (mx * my) (ex + ey))
    as [Hzero _].
  change (emin prec emax) with (-149) in Hzero.
  rewrite (proj2 Hzero); [done|].
  assert (0 ≤ -150 - 2 * ex) as Hnx.
  { destruct (Z.le_gt_cases 0 (-150 - 2 * ex)); [done|].
    rewrite Z.pow_neg_r in Hx by lia. lia. }
  assert (0 ≤ -150 - 2 * ey) as Hny.
  { destruct (Z.le_gt_cases 0 (-150 - 2 * ey)); [done|].
    rewrite Z.pow_neg_r in Hy by lia. lia. }
  replace (-149 - 1 - (ex + ey)) with ((-75 - ex) + (-75 - ey)) by lia.
  replace (-150 - 2 * ex) with ((-75 - ex) + (-75 - ex)) in Hx by lia.
  replace (-150 - 2 * ey) with ((-75 - ey) + (-75 - ey)) in Hy by lia.
  rewrite Z.pow_add_r in * by lia. rewrite Pos2Z.inj_mul.
  assert (0 < 2 ^ (-75 - ex)) by (apply Z.pow_pos_nonneg; lia).
  assert (0 < 2 ^ (-75 - ey)) by (apply Z.pow_pos_nonneg; lia).
  assert (Zpos mx ≤ 2 ^ (-75 - ex)) by nia.
  assert (Zpos my ≤ 2 ^ (-75 - ey)) by nia.
  nia.
Qed.

Lemma add_zero_zero (s p : spec_float) :
  is_zero s = true → is_zero p = true → is_zero (SFadd prec emax s p) = true.
Proof. destruct s as [[]| | |], p as [[]| | |]; done. Qed.

End B32Zero.

(** ** Runs in binary32 *)

Import B32 B32Runs.

(** C1. Scenario A: the array starts as [0; 1; 2], [cluster_spectra]
    returns [0; 0; 2], which has two distinct values, and the similarity
    of S0 and S1 is [1.0]; S1 passes both tests against S0, S2 fails the
    pepmass test against S0 although it is similar to it. *)
Theorem scenario_A_run :
  initialize_cluster 3 = [0; 1; 2]%nat ∧
  cluster_spectra (initialize_cluster 3) scenario_A = Some [0; 0; 2]%nat ∧
  num_clusters [0; 0; 2]%nat = 2%nat ∧
  cosine_similarity S0 S1 = Some (of_int 1) ∧
  passes_pepmass_test S1 S0 = true ∧ is_similar S1 S0 = Some true ∧
  passes_pepmass_test S2 S0 = false ∧ is_similar S2 S0 = Some true.
Proof. repeat split; vm_compute; reflexivity. Qed.

(** C2 fails as stated: spectra 1 and 2 of [gate_spectra] are 3.0 apart
    in pepmass, yet both algorithms give them representative 0. *)
Lemma pepmass_gate_counterexample :
  SFleb (of_int 2) (SFabs (SFsub prec emax (pepmass G1) (pepmass G2))) = true ∧
  passes_pepmass_test G1 G2 = false ∧
  cluster_spectra (initialize_cluster 3) gate_spectra = Some [0; 0; 0]%nat ∧
  naive_cluster_spectra (initialize_cluster 3) gate_spectra = Some [0; 0; 0]%nat.
Proof. repeat split; vm_compute; reflexivity. Qed.


(** C8 fails as stated: after registering [twin_peaks] the bucket
    "100.00" holds index 0 twice. *)
Lemma bucket_duplicate_counterexample :
  ∃ st, cluster_prefix 1 (initialize_cluster 1) twin_peaks = Some st ∧
    bucket_of st.2 "100.00" = [0; 0]%nat ∧
    ¬ NoDup (bucket_of st.2 "100.00").
Proof.
  eexists. split; [vm_compute; reflexivity|].
  split; [vm_compute; reflexivity|].
  intros Hnd. vm_compute in Hnd. apply NoDup_cons in Hnd as [Hnin _].
  apply Hnin. by left.
Qed.


(** ** Exact arithmetic *)

Module ExactFacts.
Import Exact.
Local Open Scope R_scope.








End ExactFacts.

(** ** Binary32: the degenerate score *)

Module B32Degenerate.
Import B32Zero.

Lemma intensities_valid_lookup (a : spectrum_t spec_float) (i : nat) (x : spec_float) :
  intensities_valid a = true → intensities a !! i = Some x →
  valid_binary prec emax x = true.
Proof.
  unfold intensities_valid. rewrite forallb_forall. intros Hv Hx.
  by eapply Hv, list_elem_of_In, list_elem_of_lookup_2.
Qed.

Lemma walk_init_inv : walk_inv walk_init.
Proof. split; [by left|]. split; [by left|done]. Qed.

Lemma walk_body_inv (a b : spectrum_t spec_float) (w w' : walk_t) :
  intensities_valid a = true → intensities_valid b = true →
  walk_inv w → walk_body a b w = Some w' → walk_inv w'.
Proof.
  intros Ha Hb (Hda & Hdb & Hsc) Hbody.
  destruct (walk_body_inversion a b w w' Hbody)
    as [(ia & ib & Hia & Hib & ->)|[(ia & Hia & ->)|[(ib & Hib & ->)| ->]]];
    unfold walk_inv; cbn [w_score w_a_den w_b_den f_add_pow2 f_add f_mul arith].
  - destruct (add_pow2_spec _ ia Hda (intensities_valid_lookup _ _ _ Ha Hia)) as [Hoa Hza].
    destruct (add_pow2_spec _ ib Hdb (intensities_valid_lookup _ _ _ Hb Hib)) as [Hob Hzb].
    do 2 (split; [done|]). intros H1 H2.
    destruct (Hza H1) as [Heqa Hva]. destruct (Hzb H2) as [Heqb Hvb].
    apply add_zero_zero; [|by apply mul_vanishing].
    apply Hsc; [by rewrite Heqa|by rewrite Heqb].
  - destruct (add_pow2_spec _ ia Hda (intensities_valid_lookup _ _ _ Ha Hia)) as [Hoa Hza].
    do 2 (split; [done|]). intros H1 H2.
    destruct (Hza H1) as [Heqa Hva]. apply Hsc; [by rewrite Heqa|done].
  - destruct (add_pow2_spec _ ib Hdb (intensities_valid_lookup _ _ _ Hb Hib)) as [Hob Hzb].
    do 2 (split; [done|]). intros H1 H2.
    destruct (Hzb H2) as [Heqb Hvb]. apply Hsc; [done|by rewrite Heqb].
  - done.
Qed.

Lemma walk_loop_inv (a b : spectrum_t spec_float) (fuel : nat) (w w' : walk_t) :
  intensities_valid a = true → intensities_valid b = true →
  walk_inv w → walk_loop fuel a b w = Some w' → walk_inv w'.
Proof.
  intros Ha Hb. apply walk_loop_invariant. intros w1 w2. by apply walk_body_inv.
Qed.

Lemma zero_over_zero (s da db : spec_float) :
  is_zero s = true → is_zero da = true → is_zero db = true →
  f_div s (f_sqrt (f_mul da db)) = S754_nan.
Proof. destruct s as [[]| | |], da as [[]| | |], db as [[]| | |]; done. Qed.

(** When the walk ends with both sums of squares zero, the score is not
    a number and the pair is not similar. *)
Lemma zero_sums_not_similar (a b : spectrum_t spec_float) (w : walk_t) :
  intensities_valid a = true → intensities_valid b = true →
  walk_loop (num_peaks a + num_peaks b) a b walk_init = Some w →
  is_zero (w_a_den w) = true → is_zero (w_b_den w) = true →
  cosine_similarity a b = Some S754_nan ∧ is_similar a b = Some false ∧
  clusterable a b = Some false.
Proof.
  intros Ha Hb Hw Hza Hzb.
  destruct (walk_loop_inv a b _ _ w Ha Hb walk_init_inv Hw) as (_ & _ & Hsc).
  assert (cosine_similarity a b = Some S754_nan) as Hcos.
  { unfold cosine_similarity. rewrite Hw. simpl. f_equal.
    apply zero_over_zero; auto. }
  assert (is_similar a b = Some false) as Hsim.
  { unfold is_similar. by rewrite Hcos. }
  do 2 (split; [done|]). unfold clusterable. rewrite Hsim. by destruct (passes_pepmass_test a b).
Qed.

End B32Degenerate.

(** C9. In binary32, when the walk of [a] and [b] ends with both sums of
    squares zero, [cosine_similarity] returns NaN and [is_similar] answers
    [false]; on any input holding [a] at index [i] and [b] at another index
    [c], both drivers return their array, and in it [c] is not the
    representative of [i]. *)
Theorem degenerate_similarity (a b : spectrum_t spec_float) (w : walk_t) :
  intensities_valid a = true → intensities_valid b = true →
  walk_loop (num_peaks a + num_peaks b) a b walk_init = Some w →
  is_zero (w_a_den w) = true → is_zero (w_b_den w) = true →
  cosine_similarity a b = Some S754_nan ∧
  is_similar a b = Some false ∧
  ∀ (spectra : list (spectrum_t spec_float)) (i c : nat),
    input_ok spectra = true →
    spectra !! i = Some a → spectra !! c = Some b → c ≠ i →
    (∃ clusters,
        cluster_spectra (initialize_cluster (length spectra)) spectra = Some clusters ∧
        clusters !! i ≠ Some c) ∧
    (∃ clusters,
        naive_cluster_spectra (initialize_cluster (length spectra)) spectra
          = Some clusters ∧
        clusters !! i ≠ Some c).
Proof.
  intros Hva Hvb Hw Hza Hzb.
  destruct (B32Degenerate.zero_sums_not_similar a b w Hva Hvb Hw Hza Hzb)
    as (Hcos & Hsim & Hcl).
  do 2 (split; [done|]). intros spectra i c Hok Hsi Hsc Hne.
  assert (accepts spectra a c = Some false) as Hacc.
  { unfold accepts. by rewrite Hsc. }
  assert (i < length spectra)%nat as Hi by (by eapply lookup_lt_Some).
  split.
  - destruct (cluster_spectra_prefix spectra Hok) as (st & _ & Hrun & Hlen & _ & Hroot & _).
    exists st.1. split; [done|]. intros Hic.
    destruct (Hroot i c) as (_ & _ & Hacc'); [lia|done|].
    destruct (Hacc' ltac:(done)) as (si' & Hsi' & Hacc''). simplify_eq.
  - destruct (naive_cluster_spectra_inv spectra (input_ok_naive _ Hok))
      as (cl & Hrun & Hlen & _ & Hroot).
    exists cl. split; [done|]. intros Hic.
    destruct (Hroot i c) as (_ & _ & Hacc'); [lia|done|].
    destruct (Hacc' ltac:(done)) as (si' & Hsi' & Hacc''). simplify_eq.
Qed.

(** ** The theorems at concrete inputs *)

Lemma cosine_similarity_terminates_witness :
  spectrum_wf S0 = true ∧ spectrum_wf S1 = true ∧ peaks_comparable S0 S1 = true ∧
  is_Some (cosine_similarity S0 S1).
Proof.
  assert (spectrum_wf S0 = true) as H0 by reflexivity.
  assert (spectrum_wf S1 = true) as H1 by reflexivity.
  assert (peaks_comparable S0 S1 = true) as Hc by (vm_compute; reflexivity).
  do 3 (split; [assumption|]).
  exact (proj2 (proj2 (cosine_similarity_terminates S0 S1 H0 H1 Hc))).
Defined.

Lemma representatives_are_roots_witness :
  input_ok scenario_A = true ∧
  ∃ clusters,
    cluster_spectra (initialize_cluster (length scenario_A)) scenario_A = Some clusters ∧
    length clusters = length scenario_A ∧
    ∀ i r, clusters !! i = Some r → (r ≤ i)%nat ∧ clusters !! r = Some r.
Proof.
  assert (input_ok scenario_A = true) as Hok by (vm_compute; reflexivity).
  split; [assumption|].
  exact (proj1 (representatives_are_roots scenario_A Hok)).
Defined.

Lemma pepmass_gate_on_representative_witness :
  input_ok gate_spectra = true ∧
  ∃ clusters,
    cluster_spectra (initialize_cluster (length gate_spectra)) gate_spectra = Some clusters ∧
    ∀ i r si, clusters !! i = Some r → r ≠ i → gate_spectra !! i = Some si →
      ∃ sr, gate_spectra !! r = Some sr ∧ passes_pepmass_test si sr = true.
Proof.
  assert (input_ok gate_spectra = true) as Hok by (vm_compute; reflexivity).
  split; [assumption|].
  exact (proj1 (pepmass_gate_on_representative gate_spectra Hok)).
Defined.



Lemma bucket_index_contents_witness :
  input_ok twin_peaks = true ∧ (1 ≤ length twin_peaks)%nat ∧
  ∃ final clusters peak_buckets,
    cluster_spectra (initialize_cluster (length twin_peaks)) twin_peaks = Some final ∧
    cluster_prefix 1 (initialize_cluster (length twin_peaks)) twin_peaks
      = Some (clusters, peak_buckets) ∧
    bucket_of peak_buckets "100.00"
      = flat_map (λ c, replicate (hits twin_peaks "100.00" c) c) (roots_below final 1).
Proof.
  assert (input_ok twin_peaks = true) as Hok by (vm_compute; reflexivity).
  assert (1 ≤ length twin_peaks)%nat as Hk by (simpl; lia).
  do 2 (split; [assumption|]).
  destruct (bucket_index_contents twin_peaks 1 Hok Hk)
    as (final & clusters & peak_buckets & H1 & H2 & H3).
  exists final, clusters, peak_buckets.
  split; [exact H1|]. split; [exact H2|]. exact (proj1 (H3 "100.00")).
Defined.



Lemma degenerate_similarity_witness :
  intensities_valid faint = true ∧
  cosine_similarity faint faint = Some S754_nan ∧
  is_similar faint faint = Some false ∧
  ∃ clusters,
    cluster_spectra (initialize_cluster (length faint_spectra)) faint_spectra
      = Some clusters ∧
    clusters !! 1%nat ≠ Some 0%nat.
Proof.
  assert (input_ok faint_spectra = true) as Hok by (vm_compute; reflexivity).
  assert (intensities_valid faint = true) as Hv by (vm_compute; reflexivity).
  assert (faint_spectra !! 1%nat = Some faint) as H1 by reflexivity.
  assert (faint_spectra !! 0%nat = Some faint) as H0 by reflexivity.
  assert (0 ≠ 1)%nat as Hne by lia.
  assert (∃ w, walk_loop (num_peaks faint + num_peaks faint) faint faint walk_init = Some w ∧
               is_zero (w_a_den w) = true ∧ is_zero (w_b_den w) = true)
    as (w & Hw & Hza & Hzb).
  { eexists. split; [vm_compute; reflexivity|]. split; reflexivity. }
  split; [assumption|].
  destruct (degenerate_similarity faint faint w Hv Hv Hw Hza Hzb) as (Hcos & Hsim & Hdrv).
  split; [exact Hcos|]. split; [exact Hsim|].
  exact (proj1 (Hdrv faint_spectra 1%nat 0%nat Hok H1 H0 Hne)).
Defined.

(** * Further properties of the code *)

(** ** The cluster array and the cluster count *)

Lemma sorted_lt_ext (l1 l2 : list nat) :
  StronglySorted lt l1 → StronglySorted lt l2 →
  (∀ x, x ∈ l1 ↔ x ∈ l2) → l1 = l2.
Proof.
  intros H1 H2 Hel.
  assert (AntiSymm eq lt) as Hanti by (intros x y ? ?; lia).
  apply (StronglySorted_unique lt); [done..|].
  apply NoDup_Permutation; [by apply strictly_sorted_NoDup..|done].
Qed.

Lemma seq_sorted (start n : nat) : StronglySorted lt (seq start n).
Proof.
  revert start. induction n as [|n IH]; intros start; simpl; constructor; [apply IH|].
  apply Forall_forall. intros x Hx%elem_of_seq. lia.
Qed.

Lemma filter_sorted (P : nat → Prop) `{∀ x, Decision (P x)} (l : list nat) :
  StronglySorted lt l → StronglySorted lt (filter P l).
Proof.
  induction 1 as [|x l Hl IH Hx]; [constructor|].
  rewrite filter_cons. case_decide; [|done]. constructor; [done|].
  apply Forall_forall. intros y [_ Hy]%list_elem_of_filter.
  rewrite Forall_forall in Hx. by apply Hx.
Qed.

Lemma roots_below_sorted (clusters : list nat) (k : nat) :
  StronglySorted lt (roots_below clusters k).
Proof. apply filter_sorted, seq_sorted. Qed.

(** In an array whose entries point to own representatives at or below
    them, the distinct values are the own representatives. *)
Lemma set_of_vector_roots (clusters : list nat) :
  (∀ i r, clusters !! i = Some r → (r ≤ i)%nat ∧ clusters !! r = Some r) →
  set_of_vector clusters = roots_below clusters (length clusters).
Proof.
  intros Hroot. apply sorted_lt_ext; [apply set_of_vector_sorted|apply roots_below_sorted|].
  intros x. rewrite set_of_vector_elem, roots_below_elem. split.
  - intros [i Hi]%list_elem_of_lookup. destruct (Hroot i x Hi) as [Hle Hx].
    split; [|done]. apply lookup_lt_Some in Hi. lia.
  - intros [_ Hx]. by eapply list_elem_of_lookup_2.
Qed.

Lemma roots_below_length (clusters : list nat) (k : nat) :
  (length (roots_below clusters k) ≤ k)%nat.
Proof.
  unfold roots_below.
  pose proof (length_filter (λ c, clusters !! c = Some c) (seq 0 k)) as Hle.
  rewrite length_seq in Hle. exact Hle.
Qed.

(** X1. [initialize_cluster sz] is the identity array [0; 1; ...; sz-1],
    and [main]'s count of its distinct values is [sz]. *)
Theorem initialize_cluster_identity (sz : nat) :
  initialize_cluster sz = seq 0 sz ∧
  length (initialize_cluster sz) = sz ∧
  num_clusters (initialize_cluster sz) = sz.
Proof.
  rewrite initialize_cluster_seq. split; [done|]. split; [apply length_seq|].
  unfold num_clusters.
  rewrite (sorted_lt_ext (set_of_vector (seq 0 sz)) (seq 0 sz)).
  - apply length_seq.
  - apply set_of_vector_sorted.
  - apply seq_sorted.
  - intros x. apply set_of_vector_elem.
Qed.

Section CountFacts.
Context {F : Type} `{Arith F}.
Implicit Types spectra : list (spectrum_t F).

Lemma count_of_rooted (clusters : list nat) (n : nat) :
  length clusters = n →
  (∀ i r, clusters !! i = Some r → (r ≤ i)%nat ∧ clusters !! r = Some r) →
  num_clusters clusters = length (roots_below clusters n) ∧
  (n ≠ 0%nat → (1 ≤ num_clusters clusters ≤ n)%nat).
Proof.
  intros Hlen Hroot. unfold num_clusters. rewrite set_of_vector_roots, Hlen by done.
  split; [done|]. intros Hn. split; [|apply roots_below_length].
  assert (0%nat ∈ roots_below clusters n) as Hin.
  { apply roots_below_elem. split; [lia|].
    destruct (lookup_lt_is_Some_2 clusters 0) as [r Hr]; [lia|].
    destruct (Hroot 0%nat r Hr) as [Hle _]. by replace r with 0%nat in Hr by lia. }
  destruct (roots_below clusters n); [by apply elem_of_nil in Hin|simpl; lia].
Qed.

(** X2. The number of clusters reported for the array of either driver
    is the number of spectra that are their own representative; for a
    non-empty input it is at least 1 (spectrum 0 always is one) and at
    most the number of spectra. *)
Theorem cluster_count_is_root_count spectra :
  input_ok spectra = true →
  (∃ clusters,
      cluster_spectra (initialize_cluster (length spectra)) spectra = Some clusters ∧
      num_clusters clusters = length (roots_below clusters (length spectra)) ∧
      (length spectra ≠ 0%nat → clusters !! 0%nat = Some 0%nat ∧
                                 (1 ≤ num_clusters clusters ≤ length spectra)%nat)) ∧
  (∃ clusters,
      naive_cluster_spectra (initialize_cluster (length spectra)) spectra = Some clusters ∧
      num_clusters clusters = length (roots_below clusters (length spectra)) ∧
      (length spectra ≠ 0%nat → clusters !! 0%nat = Some 0%nat ∧
                                 (1 ≤ num_clusters clusters ≤ length spectra)%nat)).
Proof.
  intros Hok.
  assert (∀ clusters, length clusters = length spectra →
            (∀ i r, (i < length spectra)%nat → clusters !! i = Some r →
                    (r ≤ i)%nat ∧ clusters !! r = Some r) →
            num_clusters clusters = length (roots_below clusters (length spectra)) ∧
            (length spectra ≠ 0%nat → clusters !! 0%nat = Some 0%nat ∧
               (1 ≤ num_clusters clusters ≤ length spectra)%nat)) as Hgen.
  { intros cl Hlen Hroot.
    assert (∀ i r, cl !! i = Some r → (r ≤ i)%nat ∧ cl !! r = Some r) as Hroot'.
    { intros i r Hr. apply Hroot; [|done]. rewrite <- Hlen. by eapply lookup_lt_Some. }
    destruct (count_of_rooted cl (length spectra) Hlen Hroot') as [Hc Hb].
    split; [done|]. intros Hn. split; [|by apply Hb].
    destruct (lookup_lt_is_Some_2 cl 0) as [r Hr]; [lia|].
    destruct (Hroot' 0%nat r Hr) as [Hle _]. by replace r with 0%nat in Hr by lia. }
  split.
  - destruct (cluster_spectra_prefix spectra Hok) as (st & _ & Hrun & Hlen & _ & Hroot & _).
    exists st.1. split; [done|]. apply Hgen; [done|].
    intros i r Hi Hr. by destruct (Hroot i r Hi Hr) as (? & ? & _).
  - destruct (naive_cluster_spectra_inv spectra (input_ok_naive _ Hok))
      as (cl & Hrun & Hlen & _ & Hroot).
    exists cl. split; [done|]. apply Hgen; [done|].
    intros i r Hi Hr. by destruct (Hroot i r Hi Hr) as (? & ? & _).
Qed.

End CountFacts.

(** ** Which representative a spectrum joins *)

Section ChoiceFacts.
Context {F : Type} `{Arith F}.
Implicit Types spectra : list (spectrum_t F).
Implicit Types a b si : spectrum_t F.

Lemma key_hits_pos a key :
  (0 < key_hits a key)%nat ↔
  ∃ p, p ∈ take (Nat.min 5 (num_peaks a)) (peaks a) ∧ get_peak_bucket p = Some key.
Proof.
  unfold key_hits. split.
  - intros Hpos.
    destruct (filter _ _) as [|p l] eqn:Hf; [simpl in Hpos; lia|].
    assert (p ∈ filter (λ p, get_peak_bucket p = Some key)
                       (take (Nat.min 5 (num_peaks a)) (peaks a))) as Hin
      by (rewrite Hf; by left).
    apply list_elem_of_filter in Hin as [Hk Hin]. by exists p.
  - intros (p & Hin & Hk).
    assert (p ∈ filter (λ p, get_peak_bucket p = Some key)
                       (take (Nat.min 5 (num_peaks a)) (peaks a))) as Hin'
      by (by apply list_elem_of_filter).
    destruct (filter _ _); [by apply elem_of_nil in Hin'|simpl; lia].
Qed.

Lemma shares_key_spec a b :
  shares_key a b = true ↔
  ∃ key, (0 < key_hits a key)%nat ∧ (0 < key_hits b key)%nat.
Proof.
  unfold shares_key. rewrite existsb_exists. split.
  - intros (p & Hin%list_elem_of_In & Hp).
    destruct (get_peak_bucket p) as [key|] eqn:Hk; [|done].
    apply bool_decide_eq_true in Hp. exists key. split; [|done].
    apply key_hits_pos. by exists p.
  - intros (key & (p & Hin & Hk)%key_hits_pos & Hb).
    exists p. split; [by apply list_elem_of_In|].
    rewrite Hk. by apply bool_decide_eq_true.
Qed.

Lemma bucket_member spectra k st key c :
  cluster_inv spectra k st →
  c ∈ bucket_of st.2 key ↔
  (c < k)%nat ∧ st.1 !! c = Some c ∧ (0 < hits spectra key c)%nat.
Proof.
  intros (_ & _ & _ & Hb). rewrite Hb. split.
  - intros Hc. apply list_elem_of_In, in_flat_map in Hc as (c' & Hc' & Hin).
    apply list_elem_of_In, elem_of_replicate in Hin as [-> Hn].
    apply list_elem_of_In, roots_below_elem in Hc' as [? ?].
    repeat split; (done || lia).
  - intros (Hk & Hroot & Hpos). apply list_elem_of_In, in_flat_map.
    exists c. split.
    + apply list_elem_of_In, roots_below_elem. done.
    + apply list_elem_of_In, elem_of_replicate. split; [done|lia].
Qed.

(** The outcome of pass [i] of [cluster_spectra], in the final array. *)
Lemma cluster_pass_outcome spectra i :
  input_ok spectra = true → (i < length spectra)%nat →
  ∃ final si candidates,
    cluster_spectra (initialize_cluster (length spectra)) spectra = Some final ∧
    length final = length spectra ∧
    spectra !! i = Some si ∧
    StronglySorted lt candidates ∧
    (∀ c, c ∈ candidates ↔
          (c < i)%nat ∧ final !! c = Some c ∧
          ∃ sc, spectra !! c = Some sc ∧ shares_key si sc = true) ∧
    ((∃ pre c post, candidates = pre ++ c :: post ∧
        (∀ c', c' ∈ pre → accepts spectra si c' = Some false) ∧
        accepts spectra si c = Some true ∧ final !! i = Some c) ∨
     ((∀ c, c ∈ candidates → accepts spectra si c = Some false) ∧
      final !! i = Some i)).
Proof.
  intros Hok Hi.
  destruct (cluster_spectra_prefix spectra Hok) as (stn & Hstn & Hrun & Hinvn).
  destruct (cluster_prefix_inv spectra i Hok) as (st & Hst & Hinv); [lia|].
  destruct (cluster_step_spec spectra i st Hok Hi Hinv)
    as (si & cands & Hsi & Hcand & Hsorted & Helem & Hstep).
  destruct (cluster_step_inv spectra i st Hok Hi Hinv) as (st' & Hst' & Hinv' & Hsame).
  assert (cluster_prefix (S i) (initialize_cluster (length spectra)) spectra = Some st')
    as Hnext.
  { unfold cluster_prefix in *. by rewrite for_each_seq_S, Hst. }
  assert (∀ j, (j < i)%nat → stn.1 !! j = st.1 !! j) as Hbelow.
  { intros j Hj. eapply (cluster_prefix_stable spectra i (length spectra)); eauto. lia. }
  assert (stn.1 !! i = st'.1 !! i) as Hat.
  { eapply (cluster_prefix_stable spectra (S i) (length spectra)); eauto; lia. }
  exists stn.1, si, cands. split; [done|].
  split; [by destruct Hinvn as (? & _)|]. do 2 (split; [done|]). split.
  - intros c. rewrite Helem. split.
    + intros (key & Hpos & Hin).
      apply (bucket_member spectra i st key c Hinv) in Hin as (Hci & Hroot & Hhits).
      split; [done|]. split; [by rewrite Hbelow|].
      destruct (lookup_lt_is_Some_2 spectra c) as [sc Hsc]; [lia|].
      exists sc. split; [done|]. apply shares_key_spec. exists key. split; [done|].
      unfold hits in Hhits. by rewrite Hsc in Hhits.
    + intros (Hci & Hroot & sc & Hsc & Hshare).
      apply shares_key_spec in Hshare as (key & Hka & Hkb).
      exists key. split; [done|].
      apply (bucket_member spectra i st key c Hinv).
      split; [done|]. split; [by rewrite <- Hbelow|].
      unfold hits. by rewrite Hsc.
  - destruct Hstep as [(pre & c & post & -> & Hpre & Hc & Hstep)|
                       (Hall & pb' & Hpb' & Hspec & Hstep)].
    + left. exists pre, c, post. do 3 (split; [done|]).
      rewrite Hat. rewrite Hstep in Hst'. inversion Hst'; subst st'. simpl.
      apply list_lookup_insert_eq. destruct Hinv as (Hlen & _). lia.
    + right. split; [done|].
      rewrite Hat. rewrite Hstep in Hst'. inversion Hst'; subst st'. simpl.
      destruct Hinv as (_ & Hid & _). apply Hid. lia.
Qed.

Lemma sorted_before (pre post : list nat) (c x : nat) :
  StronglySorted lt (pre ++ c :: post) → x ∈ pre ++ c :: post → (x < c)%nat →
  x ∈ pre.
Proof.
  intros Hs Hx Hlt. apply elem_of_app in Hx as [Hx|Hx]; [done|].
  apply StronglySorted_app in Hs as (_ & _ & Hs).
  apply StronglySorted_inv in Hs as [_ Hall].
  apply elem_of_cons in Hx as [->|Hx]; [lia|].
  rewrite Forall_forall in Hall. specialize (Hall _ Hx). lia.
Qed.

Lemma heuristic_choice spectra :
  input_ok spectra = true →
  ∃ final,
    cluster_spectra (initialize_cluster (length spectra)) spectra = Some final ∧
    length final = length spectra ∧
    ∀ i si r, spectra !! i = Some si → final !! i = Some r →
      (r ≠ i → ∃ sr, spectra !! r = Some sr ∧ shares_key si sr = true ∧
                     accepts spectra si r = Some true) ∧
      (∀ c sc, (c < r)%nat → final !! c = Some c → spectra !! c = Some sc →
               shares_key si sc = true → accepts spectra si c = Some false).
Proof.
  intros Hok.
  destruct (cluster_spectra_prefix spectra Hok) as (stn & _ & Hrun & Hlen & _ & Hroot & _).
  exists stn.1. do 2 (split; [done|]). intros i si r Hsi Hr.
  assert (i < length spectra)%nat as Hi by (by eapply lookup_lt_Some).
  destruct (cluster_pass_outcome spectra i Hok Hi)
    as (final & si' & cands & Hrun' & _ & Hsi' & Hsorted & Helem & Hout).
  assert (final = stn.1) as -> by congruence. assert (si' = si) as -> by congruence.
  destruct (Hroot i r Hi Hr) as (Hri & _ & _).
  destruct Hout as [(pre & c & post & -> & Hpre & Hc & Hfin)|[Hall Hfin]].
  - assert (r = c) as -> by congruence.
    destruct (Helem c) as [(Hci & Hcroot & sc & Hsc & Hshare) _];
      [apply elem_of_app; right; by left|].
    split; [intros _; by exists sc|].
    intros c' sc' Hlt Hc'root Hsc' Hshare'.
    apply Hpre, (sorted_before pre post c); [done| |done].
    apply Helem. split; [lia|]. split; [done|]. by exists sc'.
  - assert (r = i) as -> by congruence. split; [done|].
    intros c' sc' Hlt Hc'root Hsc' Hshare'.
    apply Hall, Helem. split; [done|]. split; [done|]. by exists sc'.
Qed.

(** X3. [cluster_spectra] gives a spectrum the lowest-numbered earlier
    own representative that shares a bucket key with it and passes both
    tests; the spectrum stays its own representative exactly when there
    is none. In particular a spectrum is only ever joined to a
    representative it shares a key with. *)
Theorem heuristic_joins_least_candidate spectra :
  input_ok spectra = true →
  ∃ final,
    cluster_spectra (initialize_cluster (length spectra)) spectra = Some final ∧
    length final = length spectra ∧
    ∀ i si r, spectra !! i = Some si → final !! i = Some r →
      (r ≤ i)%nat ∧ final !! r = Some r ∧
      (r ≠ i → ∃ sr, spectra !! r = Some sr ∧ shares_key si sr = true ∧
                     accepts spectra si r = Some true) ∧
      (∀ c sc, (c < r)%nat → final !! c = Some c → spectra !! c = Some sc →
               shares_key si sc = true → accepts spectra si c = Some false).
Proof.
  intros Hok.
  destruct (heuristic_choice spectra Hok) as (final & Hrun & Hlen & Hchoice).
  destruct (cluster_spectra_prefix spectra Hok) as (st & _ & Hrun' & _ & _ & Hroot & _).
  assert (st.1 = final) as Hst by congruence. rewrite Hst in Hroot.
  exists final. do 2 (split; [done|]). intros i si r Hsi Hr.
  assert (i < length spectra)%nat as Hi by (by eapply lookup_lt_Some).
  destruct (Hroot i r Hi Hr) as (Hle & Hrr & _).
  destruct (Hchoice i si r Hsi Hr) as [Hjoin Hleast].
  by repeat split.
Qed.

Lemma first_occurrences_app (seen : gset nat) (l1 l2 : list nat) :
  first_occurrences seen (l1 ++ l2)
  = first_occurrences seen l1 ++ first_occurrences (seen ∪ list_to_set l1) l2.
Proof.
  revert seen. induction l1 as [|c l1 IH]; intros seen; simpl.
  - f_equal. set_solver.
  - case_decide as Hc.
    + rewrite IH. f_equal. f_equal. set_solver.
    + simpl. rewrite IH. f_equal. f_equal. f_equal. set_solver.
Qed.

(** In an array whose entries below [i] point to own representatives at
    or below them, the candidates of a naive scan come up in ascending
    order of representative. *)
Lemma first_occurrences_roots (clusters : list nat) (i : nat) :
  (i ≤ length clusters)%nat →
  (∀ j r, (j < i)%nat → clusters !! j = Some r →
          (r ≤ j)%nat ∧ clusters !! r = Some r) →
  first_occurrences ∅ (take i clusters) = roots_below clusters i.
Proof.
  induction i as [|i IH]; intros Hlen Hroot; [done|].
  destruct (lookup_lt_is_Some_2 clusters i) as [x Hx]; [lia|].
  rewrite (take_S_r _ _ _ Hx), first_occurrences_app, roots_below_S, IH
    by (lia || (intros; apply Hroot; (lia || done))).
  f_equal. destruct (Hroot i x ltac:(lia) Hx) as [Hle Hxx]. simpl.
  case_decide as Hseen; case_decide as Hself; try done.
  - exfalso. assert (x = i) as -> by congruence.
    apply elem_of_union in Hseen as [Hs|Hs]; [by apply elem_of_empty in Hs|].
    apply elem_of_list_to_set, list_elem_of_lookup in Hs as [j Hj].
    apply lookup_take_Some in Hj as [Hj Hji].
    destruct (Hroot j i ltac:(lia) Hj). lia.
  - by assert (x = i) as -> by congruence.
  - exfalso. apply Hseen, elem_of_union. right.
    apply elem_of_list_to_set, list_elem_of_lookup. exists x.
    assert (x ≠ i) by congruence. rewrite lookup_take_lt by lia. done.
Qed.

(** The outcome of pass [i] of [naive_cluster_spectra], in the final
    array. *)
Lemma naive_pass_outcome spectra i :
  naive_input_ok spectra = true → (i < length spectra)%nat →
  ∃ final si,
    naive_cluster_spectra (initialize_cluster (length spectra)) spectra = Some final ∧
    length final = length spectra ∧
    spectra !! i = Some si ∧
    first_occurrences ∅ (take i final) = roots_below final i ∧
    ∃ r, final !! i = Some r ∧ (r ≤ i)%nat ∧ final !! r = Some r ∧
      (r ≠ i → accepts spectra si r = Some true) ∧
      (∀ c, (c < r)%nat → final !! c = Some c → accepts spectra si c = Some false).
Proof.
  intros Hok Hi.
  destruct (naive_cluster_spectra_inv spectra Hok) as (final & Hfinal & Hinvn).
  destruct (lookup_lt_is_Some_2 spectra i Hi) as [si Hsi].
  pose proof Hinvn as (Hlenn & _ & Hrootn).
  exists final, si. do 3 (split; [done|]). split.
  { apply first_occurrences_roots; [lia|]. intros j r Hj Hr.
    destruct (Hrootn j r) as (? & ? & _); [lia|done..]. }
  destruct (decide (i = 0%nat)) as [->|Hnz].
  { destruct (lookup_lt_is_Some_2 final 0) as [r Hr]; [lia|].
    destruct (Hrootn 0%nat r Hi Hr) as (Hle & Hrr & _).
    assert (r = 0%nat) as -> by lia.
    exists 0%nat. do 3 (split; [done|]). split; [done|]. intros; lia. }
  destruct (naive_prefix_inv spectra i Hok) as (cl & Hcl & Hinv); [lia|].
  destruct (naive_step_spec spectra i cl Hok ltac:(lia) Hinv) as (si' & Hsi' & Hstep).
  assert (si' = si) as -> by congruence.
  destruct (naive_step_inv spectra i cl Hok ltac:(lia) Hinv) as (cl' & Hcl' & Hinv' & _).
  assert (naive_prefix (S i) (initialize_cluster (length spectra)) spectra = Some cl')
    as Hnext.
  { rewrite naive_prefix_S by lia. by rewrite Hcl. }
  assert (∀ j, (j < i)%nat → final !! j = cl !! j) as Hbelow.
  { intros j Hj. eapply (naive_prefix_stable spectra i (length spectra)); eauto; lia. }
  assert (final !! i = cl' !! i) as Hat.
  { eapply (naive_prefix_stable spectra (S i) (length spectra)); eauto; lia. }
  destruct Hinv as (Hlen & Hid & Hroot).
  destruct Hstep as [(j & c & Hj & Hjc & Hacc & Hbefore & Hstep)|[Hall Hstep]].
  - rewrite Hstep in Hcl'. inversion Hcl'; subst cl'.
    rewrite list_lookup_insert_eq in Hat by lia.
    destruct (Hroot j c Hj Hjc) as (Hcj & Hcc & _).
    exists c. split; [done|]. split; [lia|]. split; [by rewrite Hbelow by lia|].
    split; [done|]. intros c' Hlt Hc'.
    apply (Hbefore c' c'); [lia|]. rewrite <- Hbelow by lia. done.
  - rewrite Hstep in Hcl'. inversion Hcl'; subst cl'.
    rewrite Hid in Hat by lia.
    exists i. do 2 (split; [done|]). split; [done|]. split; [done|].
    intros c' Hlt Hc'. apply (Hall c' c'); [done|]. rewrite <- Hbelow by lia. done.
Qed.

(** X4. [naive_cluster_spectra] gives a spectrum the lowest-numbered
    earlier own representative that passes both tests, and leaves it its
    own representative exactly when there is none: scanning the members
    in index order meets the representatives in ascending order. *)
Theorem naive_joins_least_representative spectra :
  naive_input_ok spectra = true →
  ∃ final,
    naive_cluster_spectra (initialize_cluster (length spectra)) spectra = Some final ∧
    length final = length spectra ∧
    ∀ i si r, spectra !! i = Some si → final !! i = Some r →
      first_occurrences ∅ (take i final) = roots_below final i ∧
      (r ≠ i → accepts spectra si r = Some true) ∧
      (∀ c, (c < r)%nat → final !! c = Some c → accepts spectra si c = Some false).
Proof.
  intros Hok.
  destruct (naive_cluster_spectra_inv spectra Hok) as (final & Hfinal & Hlen & _).
  exists final. do 2 (split; [done|]). intros i si r Hsi Hr.
  assert (i < length spectra)%nat as Hi by (by eapply lookup_lt_Some).
  destruct (naive_pass_outcome spectra i Hok Hi)
    as (final' & si' & Hfinal' & _ & Hsi' & Hocc & r' & Hr' & _ & _ & Hacc & Hleast).
  assert (final' = final) as -> by congruence.
  assert (si' = si) as -> by congruence. assert (r' = r) as -> by congruence.
  done.
Qed.

End ChoiceFacts.

(** ** When the bucket index loses nothing *)

Section EquivalenceFacts.
Context {F : Type} `{Arith F}.
Implicit Types spectra : list (spectrum_t F).

Lemma key_closed_lookup spectra i c (a b : spectrum_t F) :
  key_closed spectra = true → spectra !! i = Some a → spectra !! c = Some b →
  clusterable a b = Some true → shares_key a b = true.
Proof.
  unfold key_closed. rewrite forallb_forall. intros Hk Ha Hb Hacc.
  assert (In a spectra) as Hina by (eapply list_elem_of_In, list_elem_of_lookup_2, Ha).
  assert (In b spectra) as Hinb by (eapply list_elem_of_In, list_elem_of_lookup_2, Hb).
  specialize (Hk _ Hina). rewrite forallb_forall in Hk. specialize (Hk _ Hinb).
  by rewrite bool_decide_eq_true_2 in Hk.
Qed.

(** X5. When every pair of the input that passes both tests also shares
    a bucket key, the bucket index loses no match: [cluster_spectra] and
    [naive_cluster_spectra] return the same array. *)
Theorem heuristic_equals_naive spectra :
  input_ok spectra = true → key_closed spectra = true →
  ∃ final,
    cluster_spectra (initialize_cluster (length spectra)) spectra = Some final ∧
    naive_cluster_spectra (initialize_cluster (length spectra)) spectra = Some final.
Proof.
  intros Hok Hclosed.
  destruct (heuristic_choice spectra Hok) as (h & Hh & Hlenh & Hch).
  destruct (naive_cluster_spectra_inv spectra (input_ok_naive _ Hok))
    as (n & Hn & Hlenn & _ & Hrootn).
  destruct (cluster_spectra_prefix spectra Hok) as (st & _ & Hrun & _ & _ & Hrooth & _).
  assert (st.1 = h) as Hst by congruence. rewrite Hst in Hrooth. clear Hst Hrun st.
  exists h. split; [done|]. rewrite Hn. f_equal.
  cut (∀ k, (k ≤ length spectra)%nat → ∀ i, (i < k)%nat → h !! i = n !! i).
  { intros Hall. apply list_eq. intros i.
    destruct (decide (i < length spectra)%nat) as [Hi|Hi].
    - symmetry. by apply (Hall (length spectra)).
    - rewrite !lookup_ge_None_2 by lia. done. }
  induction k as [|k IH]; intros Hk i Hi; [lia|].
  destruct (decide (i = k)) as [->|Hne]; [|apply IH; lia].
  specialize (IH ltac:(lia)).
  destruct (naive_pass_outcome spectra k (input_ok_naive _ Hok) ltac:(lia))
    as (n' & sk & Hn' & _ & Hsk & _ & rn & Hrn & Hrnk & Hrnroot & Haccn & Hleastn).
  assert (n' = n) as -> by congruence.
  destruct (lookup_lt_is_Some_2 h k) as [rh Hrh]; [lia|].
  destruct (Hch k sk rh Hsk Hrh) as [Hacch Hleasth].
  destruct (Hrooth k rh ltac:(lia) Hrh) as (Hrhk & Hrhroot & _).
  rewrite Hrh, Hrn. f_equal.
  destruct (Nat.lt_trichotomy rh rn) as [Hlt|[Heq|Hgt]]; [|done|]; exfalso.
  - destruct (Hacch ltac:(lia)) as (sr & Hsr & _ & Hacc).
    assert (n !! rh = Some rh) as Hroot' by (rewrite <- IH by lia; done).
    specialize (Hleastn rh Hlt Hroot'). congruence.
  - pose proof (Haccn ltac:(lia)) as Hacc.
    assert (h !! rn = Some rn) as Hroot' by (rewrite IH by lia; done).
    destruct (lookup_lt_is_Some_2 spectra rn) as [sr Hsr]; [lia|].
    assert (shares_key sk sr = true) as Hshare.
    { apply (key_closed_lookup spectra k rn); [done..|].
      unfold accepts in Hacc. by rewrite Hsr in Hacc. }
    specialize (Hleasth rn sr Hgt Hroot' Hsr Hshare). congruence.
Qed.

End EquivalenceFacts.

(** ** Registering and looking up *)

Section IndexFacts.
Context {F : Type} `{Arith F}.
Implicit Types a b : spectrum_t F.
Implicit Types peak_buckets : gmap string (list nat).

(** X6. Lookup after registration: once [a] is registered under [idx],
    the candidates of any spectrum [b] are its candidates from before
    together with [idx] when [b] shares a bucket key with [a]; so a
    spectrum with at least one peak finds itself, and on the empty index
    every lookup is empty. *)
Theorem register_then_lookup peak_buckets a b (idx : nat) :
  spectrum_wf a = true → bucketable a = true →
  spectrum_wf b = true → bucketable b = true →
  ∃ peak_buckets' before after,
    bucket_spectrum_peaks peak_buckets a idx = Some peak_buckets' ∧
    get_common_peak_candidates b peak_buckets = Some before ∧
    get_common_peak_candidates b peak_buckets' = Some after ∧
    (∀ c, c ∈ after ↔ c ∈ before ∨ (c = idx ∧ shares_key b a = true)) ∧
    get_common_peak_candidates b ∅ = Some [] ∧
    ((1 ≤ num_peaks a)%nat →
     ∃ own, get_common_peak_candidates a peak_buckets' = Some own ∧ idx ∈ own).
Proof.
  intros Hwa Hba Hwb Hbb.
  destruct (bucket_spectrum_peaks_spec peak_buckets a idx Hwa Hba) as (pb' & Hpb' & Hspec).
  destruct (get_common_peak_candidates_spec peak_buckets b Hwb Hbb)
    as (before & Hbefore & _ & Hbel).
  destruct (get_common_peak_candidates_spec pb' b Hwb Hbb) as (after & Hafter & _ & Hael).
  exists pb', before, after. do 3 (split; [done|]). split; [|split].
  - intros c. rewrite Hael, Hbel. split.
    + intros (key & Hpos & Hin). rewrite Hspec in Hin.
      apply elem_of_app in Hin as [Hin|Hin]; [left; by exists key|].
      apply elem_of_replicate in Hin as [-> Hn]. right. split; [done|].
      apply shares_key_spec. exists key. split; [done|lia].
    + intros [(key & Hpos & Hin)|[-> (key & Hkb & Hka)%shares_key_spec]].
      * exists key. split; [done|]. rewrite Hspec. apply elem_of_app. by left.
      * exists key. split; [done|]. rewrite Hspec. apply elem_of_app. right.
        apply elem_of_replicate. split; [done|lia].
  - destruct (get_common_peak_candidates_spec ∅ b Hwb Hbb) as (none & Hnone & _ & Hnel).
    rewrite Hnone. f_equal. destruct none as [|c none]; [done|]. exfalso.
    destruct (Hnel c) as [(key & _ & Hin) _]; [by left|].
    unfold bucket_of in Hin. rewrite lookup_empty in Hin. by apply elem_of_nil in Hin.
  - intros Hn.
    destruct (get_common_peak_candidates_spec pb' a Hwa Hba) as (own & Hown & _ & Hoel).
    exists own. split; [done|]. apply Hoel.
    destruct (spectrum_wf_lookup a 0 Hwa ltac:(lia)) as [[p Hp] _].
    destruct (bucketable_lookup a 0 p Hba ltac:(lia) Hp) as [key Hkey].
    assert (0 < key_hits a key)%nat as Hpos.
    { apply key_hits_pos. exists p. split; [|done].
      apply list_elem_of_lookup. exists 0%nat. rewrite lookup_take_lt by lia. done. }
    exists key. split; [done|]. rewrite Hspec. apply elem_of_app. right.
    apply elem_of_replicate. split; [done|lia].
Qed.

End IndexFacts.

(** ** The array is only written *)

Section WriteOnlyFacts.
Context {F : Type} `{Arith F}.
Implicit Types spectra : list (spectrum_t F).

(** The run of [cluster_spectra] on an arbitrary array mirrors the run
    on the identity array: the same bucket index, and the same entry
    wherever the identity run wrote one. *)
Lemma cluster_prefix_any_array spectra (clusters0 : list nat) (k : nat) :
  input_ok spectra = true → length clusters0 = length spectra →
  (k ≤ length spectra)%nat →
  ∃ st st0,
    cluster_prefix k (initialize_cluster (length spectra)) spectra = Some st ∧
    cluster_prefix k clusters0 spectra = Some st0 ∧
    st0.2 = st.2 ∧ length st0.1 = length spectra ∧
    ∀ i, st0.1 !! i = if decide (st.1 !! i = Some i) then clusters0 !! i
                      else st.1 !! i.
Proof.
  intros Hok Hlen0. induction k as [|k IH]; intros Hk.
  - exists (initialize_cluster (length spectra), ∅), (clusters0, ∅).
    do 3 (split; [done|]). split; [done|]. intros i. simpl.
    rewrite initialize_cluster_seq. case_decide as Hd; [done|].
    destruct (decide (i < length spectra)%nat) as [Hi|Hi].
    + by rewrite lookup_seq_lt in Hd by lia.
    + rewrite !lookup_ge_None_2; (done || rewrite ?length_seq; lia).
  - destruct IH as (st & st0 & Hst & Hst0 & Hpb & Hlen & Hrel); [lia|].
    destruct (cluster_prefix_inv spectra k Hok) as (st' & Hst' & Hinv); [lia|].
    assert (st' = st) as -> by congruence.
    destruct (cluster_step_spec spectra k st Hok ltac:(lia) Hinv)
      as (si & cands & Hsi & Hcand & Hsorted & Helem & _).
    pose proof Hinv as (Hleni & Hid & _ & _).
    destruct (input_ok_lookup _ _ _ Hok Hsi) as (Hwf & Hb & _).
    assert (∀ c, c ∈ cands → (c < k)%nat) as Hbelow.
    { intros c (key & _ & Hin)%Helem.
      by destruct (bucket_entries _ _ _ _ _ Hinv Hin) as [? _]. }
    unfold cluster_prefix in *. rewrite !for_each_seq_S, Hst, Hst0. simpl.
    destruct st as [cl pb], st0 as [cl0 pb0]. simpl in *. subst pb0.
    unfold cluster_step. rewrite Hsi. simpl. rewrite Hcand. simpl.
    destruct (scan_candidates_spec spectra si cands)
      as [(pre & c & post & Heq & _ & _ & ->)|[_ ->]].
    { intros c Hc. eapply accepts_total; eauto using input_ok_naive.
      specialize (Hbelow c Hc). lia. }
    + assert (c < k)%nat as Hck.
      { apply Hbelow. rewrite Heq. apply elem_of_app. right. by left. }
      simpl. unfold vector_write. rewrite !decide_True by lia. simpl.
      eexists _, _. do 3 (split; [done|]). simpl.
      split; [by rewrite length_insert|]. intros i.
      destruct (decide (i = k)) as [->|Hne].
      * rewrite !list_lookup_insert_eq by lia.
        rewrite decide_False by (intros [=]; lia). done.
      * rewrite !list_lookup_insert_ne by done. apply Hrel.
    + simpl.
      destruct (bucket_spectrum_peaks_spec pb si k Hwf Hb) as (pb' & -> & _). simpl.
      eexists _, _. do 3 (split; [done|]). simpl. split; [done|]. apply Hrel.
Qed.

(** X7. [cluster_spectra] only writes the array: started on any array
    of the right length it performs the run it performs on the identity
    array, overwrites exactly the entries of the spectra that join a
    representative, and leaves every other entry as it found it. *)
Theorem cluster_spectra_only_writes spectra (clusters0 : list nat) :
  input_ok spectra = true → length clusters0 = length spectra →
  ∃ final result,
    cluster_spectra (initialize_cluster (length spectra)) spectra = Some final ∧
    cluster_spectra clusters0 spectra = Some result ∧
    length result = length spectra ∧
    ∀ i, result !! i = if decide (final !! i = Some i) then clusters0 !! i
                       else final !! i.
Proof.
  intros Hok Hlen.
  destruct (cluster_prefix_any_array spectra clusters0 (length spectra) Hok Hlen)
    as (st & st0 & Hst & Hst0 & _ & Hlen0 & Hrel); [lia|].
  exists st.1, st0.1. unfold cluster_spectra. rewrite Hst, Hst0. done.
Qed.

End WriteOnlyFacts.

(** ** Symmetry of the similarity engine *)

Section SymmetryFacts.
Context {F : Type} `{Arith F}.
Implicit Types a b : spectrum_t F.

Hypothesis identical_sym : ∀ x y : F, is_identical_peak x y = is_identical_peak y x.
Hypothesis mul_comm : ∀ x y : F, f_mul x y = f_mul y x.
Hypothesis lt_asym : ∀ x y : F, f_lt x y = true → f_lt y x = false.

Lemma walk_guard_swap a b w : walk_guard b a (walk_swap w) = walk_guard a b w.
Proof. unfold walk_guard, walk_swap. simpl. apply andb_comm. Qed.

Lemma walk_body_swap a b w :
  walk_body b a (walk_swap w) = walk_swap <$> walk_body a b w.
Proof.
  unfold walk_body, walk_swap. simpl.
  destruct (peaks a !! w_i w) as [pa|], (peaks b !! w_j w) as [pb|]; simpl; try done.
  rewrite (identical_sym pb pa).
  destruct (is_identical_peak pa pb).
  { destruct (intensities a !! w_i w) as [ia|], (intensities b !! w_j w) as [ib|];
      simpl; try done. by rewrite (mul_comm ib ia). }
  destruct (f_lt pa pb) eqn:Hab.
  { rewrite (lt_asym _ _ Hab). by destruct (intensities a !! w_i w). }
  destruct (f_lt pb pa); [|done]. by destruct (intensities b !! w_j w).
Qed.

Lemma walk_loop_swap a b fuel w :
  walk_loop fuel b a (walk_swap w) = walk_swap <$> walk_loop fuel a b w.
Proof.
  revert w. induction fuel as [|fuel IH]; intros w; simpl; rewrite walk_guard_swap.
  - by destruct (walk_guard a b w).
  - destruct (walk_guard a b w); [|done]. rewrite walk_body_swap.
    destruct (walk_body a b w) as [w'|]; simpl; [apply IH|done].
Qed.

Lemma cosine_similarity_swap a b : cosine_similarity b a = cosine_similarity a b.
Proof.
  unfold cosine_similarity. rewrite (Nat.add_comm (num_peaks b)).
  change walk_init with (walk_swap walk_init) at 1. rewrite walk_loop_swap.
  destruct (walk_loop _ a b walk_init) as [w|]; simpl; [|done].
  by rewrite mul_comm.
Qed.

End SymmetryFacts.

Module B32Symmetry.
Import B32.

Lemma SFcompare_swap (x y : spec_float) :
  SFcompare y x = CompOpp <$> SFcompare x y.
Proof.
  destruct x as [sx|sx| |sx mx ex], y as [sy|sy| |sy my ey]; simpl; try done;
    try (by destruct sx); try (by destruct sy); try (by destruct sx, sy).
  destruct sx, sy; simpl; try done;
    rewrite (Z.compare_antisym ex ey); destruct (ex ?= ey)%Z; simpl; try done;
    rewrite (Pos.compare_cont_antisym mx my Eq); simpl;
    by destruct (Pos.compare_cont Eq mx my).
Qed.

Lemma SFltb_asym (x y : spec_float) : SFltb x y = true → SFltb y x = false.
Proof.
  unfold SFltb. rewrite (SFcompare_swap x y).
  by destruct (SFcompare x y) as [[]|].
Qed.

Lemma SFmul_comm (x y : spec_float) : SFmul prec emax x y = SFmul prec emax y x.
Proof.
  destruct x as [sx|sx| |sx mx ex], y as [sy|sy| |sy my ey]; simpl; try done;
    try (by rewrite xorb_comm).
  by rewrite xorb_comm, Pos.mul_comm, Z.add_comm.
Qed.

Lemma SFabs_round (p e : Z) (s s' : bool) (m : positive) (ex : Z) :
  SFabs (binary_round p e s m ex) = SFabs (binary_round p e s' m ex).
Proof.
  unfold binary_round, binary_round_aux.
  destruct (shl_align m ex _) as [mz ez].
  destruct (shr_fexp p e (Zpos mz) ez loc_Exact) as [mrs1 e1].
  destruct (shr_fexp p e _ e1 loc_Exact) as [mrs2 e2].
  destruct (shr_m mrs2); [done| |done]. by destruct (e2 <=? e - p)%Z.
Qed.

Lemma SFabs_normalize_opp (p e z ez : Z) :
  SFabs (binary_normalize p e (- z) ez false) = SFabs (binary_normalize p e z ez false).
Proof. destruct z; simpl; [done|apply SFabs_round..]. Qed.

Lemma SFabs_sub_swap (x y : spec_float) :
  SFabs (SFsub prec emax x y) = SFabs (SFsub prec emax y x).
Proof.
  destruct x as [sx|sx| |sx mx ex], y as [sy|sy| |sy my ey]; simpl; try done;
    try (by destruct sx, sy).
  rewrite (Z.min_comm ey ex), <- SFabs_normalize_opp. f_equal. f_equal. lia.
Qed.

Lemma is_identical_peak_sym (x y : spec_float) :
  is_identical_peak x y = is_identical_peak y x.
Proof. unfold is_identical_peak. simpl. by rewrite SFabs_sub_swap. Qed.

Lemma passes_pepmass_test_sym (a b : spectrum_t spec_float) :
  passes_pepmass_test a b = passes_pepmass_test b a.
Proof. unfold passes_pepmass_test. simpl. by rewrite SFabs_sub_swap. Qed.

Lemma cosine_similarity_sym (a b : spectrum_t spec_float) :
  cosine_similarity a b = cosine_similarity b a.
Proof.
  symmetry. apply cosine_similarity_swap.
  - apply is_identical_peak_sym.
  - apply SFmul_comm.
  - apply SFltb_asym.
Qed.

End B32Symmetry.

(** X8. In binary32 the similarity engine is symmetric for all spectra,
    whatever their values: [passes_pepmass_test], [cosine_similarity]
    (including the case that it does not return), [is_similar] and the
    combined test give the same answer for [(a, b)] and [(b, a)]. *)
Theorem similarity_symmetric (a b : spectrum_t spec_float) :
  passes_pepmass_test a b = passes_pepmass_test b a ∧
  cosine_similarity a b = cosine_similarity b a ∧
  is_similar a b = is_similar b a ∧
  clusterable a b = clusterable b a.
Proof.
  pose proof (B32Symmetry.passes_pepmass_test_sym a b) as Hp.
  pose proof (B32Symmetry.cosine_similarity_sym a b) as Hc.
  assert (is_similar a b = is_similar b a) as Hs.
  { unfold is_similar. by rewrite Hc. }
  do 3 (split; [done|]). unfold clusterable. by rewrite Hp, Hs.
Qed.

(** ** Peaks that are not numbers, and peaks that are *)

Section StuckFacts.
Context {F : Type} `{Arith F}.
Implicit Types a b : spectrum_t F.

(** When none of the three conditions holds for the first peaks, the
    loop of [cosine_similarity] never moves. *)
Lemma cosine_similarity_stuck a b (pa pb : F) :
  (1 ≤ num_peaks a)%nat → (1 ≤ num_peaks b)%nat →
  peaks a !! 0%nat = Some pa → peaks b !! 0%nat = Some pb →
  is_identical_peak pa pb = false → f_lt pa pb = false → f_lt pb pa = false →
  cosine_similarity a b = None.
Proof.
  intros Ha Hb Hpa Hpb Hid Hab Hba. unfold cosine_similarity.
  rewrite walk_loop_stuck; [done| |].
  - apply walk_guard_true. simpl. lia.
  - unfold walk_body. simpl. rewrite Hpa, Hpb. simpl. by rewrite Hid, Hab, Hba.
Qed.

End StuckFacts.

Import B32 B32Runs B32More.

(** X9. In binary32 a NaN as first peak of one of two non-empty spectra
    keeps [cosine_similarity] in its loop forever, whichever way round the
    two are passed, so [is_similar] does not return either. *)
Theorem nan_peak_never_returns (a b : spectrum_t spec_float) (pb : spec_float) :
  (1 ≤ num_peaks a)%nat → (1 ≤ num_peaks b)%nat →
  peaks a !! 0%nat = Some S754_nan → peaks b !! 0%nat = Some pb →
  cosine_similarity a b = None ∧ cosine_similarity b a = None ∧
  is_similar a b = None ∧ is_similar b a = None.
Proof.
  intros Ha Hb Hpa Hpb.
  assert (cosine_similarity a b = None) as H1.
  { apply (cosine_similarity_stuck a b S754_nan pb); try done. by destruct pb. }
  assert (cosine_similarity b a = None) as H2.
  { apply (cosine_similarity_stuck b a pb S754_nan); try done; by destruct pb. }
  do 2 (split; [done|]). unfold is_similar. by rewrite H1, H2.
Qed.

Lemma finite_input_naive_ok (spectra : list (spectrum_t spec_float)) :
  forallb (λ a, spectrum_wf a && forallb is_finite (peaks a)) spectra = true →
  naive_input_ok spectra = true.
Proof.
  rewrite forallb_forall. intros Hall. unfold naive_input_ok.
  apply andb_true_iff. split; apply forallb_forall.
  - intros a Ha. by destruct (andb_prop _ _ (Hall a Ha)).
  - intros a Ha. apply forallb_forall. intros b Hb.
    destruct (andb_prop _ _ (Hall a Ha)) as [_ Hfa].
    destruct (andb_prop _ _ (Hall b Hb)) as [_ Hfb].
    by apply B32Facts.finite_peaks_comparable.
Qed.

(** X10. In binary32, on spectra whose arrays hold [num_peaks] entries
    and whose peaks are finite, [cosine_similarity] returns for every
    pair, within [num_peaks a + num_peaks b] passes of its loop, and
    [naive_cluster_spectra] returns an array of the input's length. *)
Theorem finite_peaks_return (spectra : list (spectrum_t spec_float)) :
  forallb (λ a, spectrum_wf a && forallb is_finite (peaks a)) spectra = true →
  (∀ a b, a ∈ spectra → b ∈ spectra →
     ∃ w, walk_loop (num_peaks a + num_peaks b) a b walk_init = Some w ∧
          walk_guard a b w = false ∧ is_Some (cosine_similarity a b)) ∧
  ∃ clusters,
    naive_cluster_spectra (initialize_cluster (length spectra)) spectra = Some clusters ∧
    length clusters = length spectra.
Proof.
  intros Hall. pose proof (finite_input_naive_ok spectra Hall) as Hok. split.
  - intros a b [i Ha]%list_elem_of_lookup [j Hb]%list_elem_of_lookup.
    destruct (naive_input_ok_lookup _ _ _ Hok Ha) as [Hwa Hc].
    destruct (naive_input_ok_lookup _ _ _ Hok Hb) as [Hwb _].
    specialize (Hc j b Hb).
    destruct (walk_loop_total a b (num_peaks a + num_peaks b) walk_init Hwa Hwb Hc)
      as (w & Hw & Hg); simpl; [lia..|].
    exists w. do 2 (split; [done|]). by apply cosine_similarity_total.
  - destruct (naive_cluster_spectra_inv spectra Hok) as (cl & Hcl & Hlen & _).
    by exists cl.
Qed.

(** ** Spectra that stay alone *)

Section AloneFacts.
Context {F : Type} `{Arith F}.
Implicit Types spectra : list (spectrum_t F).

(** A spectrum that passes the tests against none and against which
    none passes is a cluster of its own in both arrays. *)
Lemma rejected_stays_alone spectra i (a : spectrum_t F) :
  input_ok spectra = true → spectra !! i = Some a →
  (∀ b, clusterable a b ≠ Some true) → (∀ b, clusterable b a ≠ Some true) →
  (∃ clusters,
      cluster_spectra (initialize_cluster (length spectra)) spectra = Some clusters ∧
      clusters !! i = Some i ∧ ∀ j, j ≠ i → clusters !! j ≠ Some i) ∧
  (∃ clusters,
      naive_cluster_spectra (initialize_cluster (length spectra)) spectra = Some clusters ∧
      clusters !! i = Some i ∧ ∀ j, j ≠ i → clusters !! j ≠ Some i).
Proof.
  intros Hok Ha Hout Hin.
  assert (i < length spectra)%nat as Hi by (by eapply lookup_lt_Some).
  assert (∀ clusters, length clusters = length spectra →
    (∀ j r, (j < length spectra)%nat → clusters !! j = Some r →
       (r ≤ j)%nat ∧ clusters !! r = Some r ∧
       (r ≠ j → ∃ sj, spectra !! j = Some sj ∧ accepts spectra sj r = Some true)) →
    clusters !! i = Some i ∧ ∀ j, j ≠ i → clusters !! j ≠ Some i) as Hgen.
  { intros cl Hlen Hroot. split.
    - destruct (lookup_lt_is_Some_2 cl i) as [r Hr]; [lia|].
      destruct (Hroot i r Hi Hr) as (_ & _ & Hacc).
      destruct (decide (r = i)) as [->|Hne]; [done|]. exfalso.
      destruct (Hacc Hne) as (si & Hsi & Hacc'). simplify_eq.
      unfold accepts in Hacc'. destruct (spectra !! r) as [sr|]; simpl in *; [|done].
      by apply (Hout sr).
    - intros j Hne Hj.
      assert (j < length spectra)%nat as Hjl.
      { rewrite <- Hlen. by eapply lookup_lt_Some. }
      destruct (Hroot j i Hjl Hj) as (_ & _ & Hacc).
      destruct (Hacc ltac:(done)) as (sj & Hsj & Hacc').
      unfold accepts in Hacc'. rewrite Ha in Hacc'. by apply (Hin sj). }
  split.
  - destruct (cluster_spectra_prefix spectra Hok) as (st & _ & Hrun & Hlen & _ & Hroot & _).
    exists st.1. split; [done|]. by apply Hgen.
  - destruct (naive_cluster_spectra_inv spectra (input_ok_naive _ Hok))
      as (cl & Hrun & Hlen & _ & Hroot).
    exists cl. split; [done|]. by apply Hgen.
Qed.

End AloneFacts.

Lemma nonfinite_pepmass_fails (a b : spectrum_t spec_float) :
  is_finite (pepmass a) = false →
  passes_pepmass_test a b = false ∧ passes_pepmass_test b a = false.
Proof.
  intros Hnf. rewrite <- (B32Symmetry.passes_pepmass_test_sym a b).
  split; unfold passes_pepmass_test; simpl;
    destruct (pepmass a) as [s|s| |s m e], (pepmass b) as [s'|s'| |s' m' e'];
    try done; by destruct s, s'.
Qed.

Lemma no_peaks_not_similar (a b : spectrum_t spec_float) :
  num_peaks a = 0%nat →
  is_similar a b = Some false ∧ is_similar b a = Some false.
Proof.
  intros Hn.
  assert (is_similar a b = Some false) as Hs.
  { unfold is_similar, cosine_similarity. rewrite Hn. simpl.
    destruct (num_peaks b); simpl; unfold walk_guard; simpl; by rewrite Hn. }
  split; [done|]. unfold is_similar in *.
  by rewrite <- (B32Symmetry.cosine_similarity_sym a b).
Qed.

(** X11. In binary32 a spectrum without peaks, or one whose pepmass is
    infinite or NaN, passes the tests against nothing: in the array of
    either driver it is its own representative and nobody else's. *)
Theorem outcasts_stay_alone (spectra : list (spectrum_t spec_float)) (i : nat)
    (a : spectrum_t spec_float) :
  input_ok spectra = true → spectra !! i = Some a →
  num_peaks a = 0%nat ∨ is_finite (pepmass a) = false →
  (∃ clusters,
      cluster_spectra (initialize_cluster (length spectra)) spectra = Some clusters ∧
      clusters !! i = Some i ∧ ∀ j, j ≠ i → clusters !! j ≠ Some i) ∧
  (∃ clusters,
      naive_cluster_spectra (initialize_cluster (length spectra)) spectra = Some clusters ∧
      clusters !! i = Some i ∧ ∀ j, j ≠ i → clusters !! j ≠ Some i).
Proof.
  intros Hok Ha Hcase.
  assert (∀ b, clusterable a b ≠ Some true ∧ clusterable b a ≠ Some true) as Hrej.
  { intros b. unfold clusterable. destruct Hcase as [Hn|Hnf].
    - destruct (no_peaks_not_similar a b Hn) as [-> ->].
      by destruct (passes_pepmass_test a b), (passes_pepmass_test b a).
    - by destruct (nonfinite_pepmass_fails a b Hnf) as [-> ->]. }
  apply (rejected_stays_alone spectra i a Hok Ha); intros b; apply Hrej.
Qed.

(** ** How many candidates a lookup returns *)

Section CandidateCount.
Context {F : Type} `{Arith F}.
Implicit Types spectra : list (spectrum_t F).

(** X12. The candidates [cluster_spectra] tests for spectrum [i] are
    distinct earlier own representatives: there are at most as many of
    them as clusters formed so far, and at most [i]. *)
Theorem candidates_bounded_by_clusters spectra (i : nat) :
  input_ok spectra = true → (i < length spectra)%nat →
  ∃ clusters peak_buckets si candidates,
    cluster_prefix i (initialize_cluster (length spectra)) spectra
      = Some (clusters, peak_buckets) ∧
    spectra !! i = Some si ∧
    get_common_peak_candidates si peak_buckets = Some candidates ∧
    NoDup candidates ∧
    (∀ c, c ∈ candidates → (c < i)%nat ∧ clusters !! c = Some c) ∧
    (length candidates ≤ num_clusters (take i clusters))%nat ∧
    (num_clusters (take i clusters) ≤ i)%nat.
Proof.
  intros Hok Hi.
  destruct (cluster_prefix_inv spectra i Hok) as (st & Hst & Hinv); [lia|].
  destruct (cluster_step_spec spectra i st Hok Hi Hinv)
    as (si & cands & Hsi & Hcand & Hsorted & Helem & _).
  destruct st as [cl pb]. simpl in *.
  exists cl, pb, si, cands. do 3 (split; [done|]).
  pose proof (strictly_sorted_NoDup _ Hsorted) as Hnd. split; [done|].
  assert (∀ c, c ∈ cands → (c < i)%nat ∧ cl !! c = Some c) as Hroots.
  { intros c (key & _ & Hin)%Helem.
    apply (bucket_entries spectra i (cl, pb) key c Hinv Hin). }
  split; [done|].
  pose proof Hinv as (Hlen & _ & Hroot & _). simpl in *.
  assert (set_of_vector (take i cl) = roots_below cl i) as Hset.
  { rewrite set_of_vector_roots.
    - rewrite length_take, Nat.min_l by lia. unfold roots_below.
      cut (∀ m, (m ≤ i)%nat →
             filter (λ c, take i cl !! c = Some c) (seq 0 m)
             = filter (λ c, cl !! c = Some c) (seq 0 m)).
      { intros Hcut. by apply Hcut. }
      induction m as [|m IH]; intros Hm; [done|].
      rewrite !seq_S, !filter_app, IH by lia. f_equal. simpl.
      rewrite !filter_cons, !filter_nil, lookup_take_lt by lia. done.
    - intros j r [Hj Hji]%lookup_take_Some.
      destruct (Hroot j r Hji Hj) as (Hle & Hrr & _).
      split; [done|]. rewrite lookup_take_lt by lia. done. }
  unfold num_clusters. rewrite Hset. split; [|apply roots_below_length].
  apply submseteq_length, NoDup_submseteq; [done|].
  intros c Hc. apply roots_below_elem. by apply Hroots.
Qed.

End CandidateCount.

(** ** Edge values of the bucket key *)



(** ** The score in exact arithmetic *)

Module ExactBound.
Import Exact ExactFacts.
Local Open Scope R_scope.





End ExactBound.


(** ** Later spectra do not change earlier entries *)

Section OnlineFacts.
Context {F : Type} `{Arith F}.
Implicit Types spectra : list (spectrum_t F).

Lemma forallb_subseteq {A : Type} (f : A → bool) (l1 l2 : list A) :
  l1 ⊆ l2 → forallb f l2 = true → forallb f l1 = true.
Proof.
  rewrite !forallb_forall. intros Hsub Hall x Hx%list_elem_of_In.
  by apply Hall, list_elem_of_In, Hsub.
Qed.

Lemma naive_input_ok_take spectra k :
  naive_input_ok spectra = true → naive_input_ok (take k spectra) = true.
Proof.
  unfold naive_input_ok. rewrite !andb_true_iff. intros [Hwf Hc]. split.
  - by apply (forallb_subseteq _ _ spectra); [apply subseteq_take|].
  - apply (forallb_subseteq _ _ spectra); [apply subseteq_take|].
    rewrite forallb_forall in Hc. apply forallb_forall. intros a Ha.
    by apply (forallb_subseteq _ _ spectra); [apply subseteq_take|apply Hc].
Qed.

Lemma input_ok_take spectra k :
  input_ok spectra = true → input_ok (take k spectra) = true.
Proof.
  unfold input_ok. rewrite !andb_true_iff. intros [Hn Hb]. split.
  - by apply naive_input_ok_take.
  - by apply (forallb_subseteq _ _ spectra); [apply subseteq_take|].
Qed.

Lemma accepts_take spectra k si c :
  (c < k)%nat → accepts (take k spectra) si c = accepts spectra si c.
Proof. intros Hc. unfold accepts. by rewrite lookup_take_lt. Qed.

(** X15. Both drivers work online: the array they return for the first
    [k] spectra alone is the first [k] entries of the array they
    return for all spectra, so spectra that come later never change
    the representative of an earlier one. *)
Theorem later_spectra_change_nothing spectra (k : nat) :
  input_ok spectra = true →
  (∃ final,
     cluster_spectra (initialize_cluster (length spectra)) spectra = Some final ∧
     cluster_spectra (initialize_cluster (length (take k spectra))) (take k spectra)
       = Some (take k final)) ∧
  (∃ final,
     naive_cluster_spectra (initialize_cluster (length spectra)) spectra = Some final ∧
     naive_cluster_spectra (initialize_cluster (length (take k spectra))) (take k spectra)
       = Some (take k final)).
Proof.
  intros Hok. pose proof (input_ok_take spectra k Hok) as Hok'.
  assert (length (take k spectra) = Nat.min k (length spectra)) as Hlen'
    by apply length_take.
  split.
  - destruct (heuristic_choice spectra Hok) as (h & Hh & Hlenh & Hch).
    destruct (heuristic_choice _ Hok') as (h' & Hh' & Hlenh' & Hch').
    destruct (cluster_spectra_prefix spectra Hok) as (st & _ & Hrun & _ & _ & Hrooth & _).
    assert (st.1 = h) as Hst by congruence. rewrite Hst in Hrooth. clear Hst Hrun st.
    destruct (cluster_spectra_prefix _ Hok') as (st & _ & Hrun & _ & _ & Hrooth' & _).
    assert (st.1 = h') as Hst by congruence. rewrite Hst in Hrooth'. clear Hst Hrun st.
    exists h. split; [done|]. rewrite Hh'. f_equal.
    cut (∀ m, (m ≤ length (take k spectra))%nat →
           ∀ i, (i < m)%nat → h' !! i = h !! i).
    { intros Hall. apply list_eq. intros i.
      destruct (decide (i < length (take k spectra))%nat) as [Hi|Hi].
      - rewrite lookup_take_lt by lia. by apply (Hall (length (take k spectra))).
      - rewrite lookup_ge_None_2 by lia.
        symmetry. apply lookup_ge_None_2. rewrite length_take. lia. }
    induction m as [|m IH]; intros Hm i Hi; [lia|].
    destruct (decide (i = m)) as [->|Hne]; [|apply IH; lia].
    specialize (IH ltac:(lia)).
    destruct (lookup_lt_is_Some_2 (take k spectra) m) as [sm Hsm']; [lia|].
    pose proof Hsm' as [Hsm Hmk]%lookup_take_Some.
    destruct (lookup_lt_is_Some_2 h m) as [r Hr]; [lia|].
    destruct (lookup_lt_is_Some_2 h' m) as [r' Hr']; [lia|].
    destruct (Hch m sm r Hsm Hr) as [Hacc Hleast].
    destruct (Hch' m sm r' Hsm' Hr') as [Hacc' Hleast'].
    destruct (Hrooth m r ltac:(lia) Hr) as (Hrm & Hrroot & _).
    destruct (Hrooth' m r' ltac:(lia) Hr') as (Hrm' & Hrroot' & _).
    rewrite Hr, Hr'. f_equal.
    destruct (Nat.lt_trichotomy r r') as [Hlt|[Heq|Hgt]]; [|done|]; exfalso.
    + destruct (Hacc ltac:(lia)) as (sr & Hsr & Hshare & Ha).
      assert (h' !! r = Some r) as Hroot by (rewrite IH by lia; done).
      assert (take k spectra !! r = Some sr) as Hsr'
        by (rewrite lookup_take_lt by lia; done).
      specialize (Hleast' r sr Hlt Hroot Hsr' Hshare).
      rewrite accepts_take in Hleast' by lia. congruence.
    + destruct (Hacc' ltac:(lia)) as (sr & Hsr' & Hshare & Ha).
      pose proof Hsr' as [Hsr _]%lookup_take_Some.
      assert (h !! r' = Some r') as Hroot by (rewrite <- IH by lia; done).
      specialize (Hleast r' sr Hgt Hroot Hsr Hshare).
      rewrite accepts_take in Ha by lia. congruence.
  - pose proof (input_ok_naive _ Hok) as Hn. pose proof (input_ok_naive _ Hok') as Hn'.
    destruct (naive_cluster_spectra_inv spectra Hn) as (n & Hrun & Hlenn & _).
    destruct (naive_cluster_spectra_inv _ Hn') as (n' & Hrun' & Hlenn' & _).
    exists n. split; [done|]. rewrite Hrun'. f_equal.
    cut (∀ m, (m ≤ length (take k spectra))%nat →
           ∀ i, (i < m)%nat → n' !! i = n !! i).
    { intros Hall. apply list_eq. intros i.
      destruct (decide (i < length (take k spectra))%nat) as [Hi|Hi].
      - rewrite lookup_take_lt by lia. by apply (Hall (length (take k spectra))).
      - rewrite lookup_ge_None_2 by lia.
        symmetry. apply lookup_ge_None_2. rewrite length_take. lia. }
    induction m as [|m IH]; intros Hm i Hi; [lia|].
    destruct (decide (i = m)) as [->|Hne]; [|apply IH; lia].
    specialize (IH ltac:(lia)).
    destruct (naive_pass_outcome spectra m Hn ltac:(lia))
      as (f & sm & Hf & _ & Hsm & _ & r & Hr & Hrm & Hrroot & Hacc & Hleast).
    assert (f = n) as -> by congruence.
    destruct (naive_pass_outcome (take k spectra) m Hn' ltac:(lia))
      as (f & sm' & Hf' & _ & Hsm' & _ & r' & Hr' & Hrm' & Hrroot' & Hacc' & Hleast').
    assert (f = n') as -> by congruence.
    pose proof Hsm' as [Hsm2 Hmk]%lookup_take_Some.
    assert (sm' = sm) as -> by congruence.
    rewrite Hr, Hr'. f_equal.
    destruct (Nat.lt_trichotomy r r') as [Hlt|[Heq|Hgt]]; [|done|]; exfalso.
    + assert (n' !! r = Some r) as Hroot by (rewrite IH by lia; done).
      specialize (Hleast' r Hlt Hroot). specialize (Hacc ltac:(lia)).
      rewrite accepts_take in Hleast' by lia. congruence.
    + assert (n !! r' = Some r') as Hroot by (rewrite <- IH by lia; done).
      specialize (Hleast r' Hgt Hroot). specialize (Hacc' ltac:(lia)).
      rewrite accepts_take in Hacc' by lia. congruence.
Qed.

End OnlineFacts.

(** ** The further properties at concrete inputs *)

Lemma cluster_count_is_root_count_witness :
  input_ok scenario_A = true ∧
  ∃ clusters,
    cluster_spectra (initialize_cluster (length scenario_A)) scenario_A = Some clusters ∧
    num_clusters clusters = length (roots_below clusters (length scenario_A)).
Proof.
  assert (input_ok scenario_A = true) as Hok by (vm_compute; reflexivity).
  split; [assumption|].
  destruct (proj1 (cluster_count_is_root_count scenario_A Hok)) as (clusters & H1 & H2 & _).
  exists clusters. split; [exact H1|exact H2].
Defined.

Lemma heuristic_joins_least_candidate_witness :
  input_ok scenario_A = true ∧
  ∃ final,
    cluster_spectra (initialize_cluster (length scenario_A)) scenario_A = Some final ∧
    length final = length scenario_A.
Proof.
  assert (input_ok scenario_A = true) as Hok by (vm_compute; reflexivity).
  split; [assumption|].
  destruct (heuristic_joins_least_candidate scenario_A Hok) as (final & H1 & H2 & _).
  exists final. split; [exact H1|exact H2].
Defined.

Lemma naive_joins_least_representative_witness :
  naive_input_ok scenario_A = true ∧
  ∃ final,
    naive_cluster_spectra (initialize_cluster (length scenario_A)) scenario_A = Some final ∧
    length final = length scenario_A.
Proof.
  assert (naive_input_ok scenario_A = true) as Hok by (vm_compute; reflexivity).
  split; [assumption|].
  destruct (naive_joins_least_representative scenario_A Hok) as (final & H1 & H2 & _).
  exists final. split; [exact H1|exact H2].
Defined.

Lemma heuristic_equals_naive_witness :
  input_ok scenario_A = true ∧ key_closed scenario_A = true ∧
  ∃ final,
    cluster_spectra (initialize_cluster (length scenario_A)) scenario_A = Some final ∧
    naive_cluster_spectra (initialize_cluster (length scenario_A)) scenario_A = Some final.
Proof.
  assert (input_ok scenario_A = true) as Hok by (vm_compute; reflexivity).
  assert (key_closed scenario_A = true) as Hc by (vm_compute; reflexivity).
  do 2 (split; [assumption|]).
  exact (heuristic_equals_naive scenario_A Hok Hc).
Defined.

Lemma register_then_lookup_witness :
  spectrum_wf S0 = true ∧ bucketable S0 = true ∧
  spectrum_wf S1 = true ∧ bucketable S1 = true ∧
  ∃ peak_buckets' before after,
    bucket_spectrum_peaks ∅ S0 0 = Some peak_buckets' ∧
    get_common_peak_candidates S1 ∅ = Some before ∧
    get_common_peak_candidates S1 peak_buckets' = Some after ∧
    (∀ c, c ∈ after ↔ c ∈ before ∨ (c = 0%nat ∧ shares_key S1 S0 = true)).
Proof.
  assert (spectrum_wf S0 = true) as Ha by reflexivity.
  assert (bucketable S0 = true) as Hba by (vm_compute; reflexivity).
  assert (spectrum_wf S1 = true) as Hb by reflexivity.
  assert (bucketable S1 = true) as Hbb by (vm_compute; reflexivity).
  do 4 (split; [assumption|]).
  destruct (register_then_lookup ∅ S0 S1 0 Ha Hba Hb Hbb)
    as (pb' & before & after & H1 & H2 & H3 & H4 & _).
  exists pb', before, after.
  split; [exact H1|]. split; [exact H2|]. split; [exact H3|exact H4].
Defined.

Lemma cluster_spectra_only_writes_witness :
  input_ok scenario_A = true ∧ length [7; 7; 7]%nat = length scenario_A ∧
  ∃ final result,
    cluster_spectra (initialize_cluster (length scenario_A)) scenario_A = Some final ∧
    cluster_spectra [7; 7; 7]%nat scenario_A = Some result ∧
    length result = length scenario_A.
Proof.
  assert (input_ok scenario_A = true) as Hok by (vm_compute; reflexivity).
  assert (length [7; 7; 7]%nat = length scenario_A) as Hlen by reflexivity.
  do 2 (split; [assumption|]).
  destruct (cluster_spectra_only_writes scenario_A [7; 7; 7]%nat Hok Hlen)
    as (final & result & H1 & H2 & H3 & _).
  exists final, result. split; [exact H1|]. split; [exact H2|exact H3].
Defined.

Lemma nan_peak_never_returns_witness :
  (1 ≤ num_peaks nan_peak)%nat ∧ (1 ≤ num_peaks S0)%nat ∧
  peaks nan_peak !! 0%nat = Some S754_nan ∧
  peaks S0 !! 0%nat = Some (dec 10000 2) ∧
  cosine_similarity nan_peak S0 = None.
Proof.
  assert (1 ≤ num_peaks nan_peak)%nat as Ha by (simpl; lia).
  assert (1 ≤ num_peaks S0)%nat as Hb by (simpl; lia).
  assert (peaks nan_peak !! 0%nat = Some S754_nan) as Hpa by reflexivity.
  assert (peaks S0 !! 0%nat = Some (dec 10000 2)) as Hpb by reflexivity.
  do 4 (split; [assumption|]).
  exact (proj1 (nan_peak_never_returns nan_peak S0 (dec 10000 2) Ha Hb Hpa Hpb)).
Defined.

Lemma finite_peaks_return_witness :
  forallb (λ a, spectrum_wf a && forallb is_finite (peaks a)) scenario_A = true ∧
  ∃ clusters,
    naive_cluster_spectra (initialize_cluster (length scenario_A)) scenario_A
      = Some clusters ∧
    length clusters = length scenario_A.
Proof.
  assert (forallb (λ a, spectrum_wf a && forallb is_finite (peaks a)) scenario_A = true)
    as Hok by (vm_compute; reflexivity).
  split; [assumption|].
  exact (proj2 (finite_peaks_return scenario_A Hok)).
Defined.

Lemma outcasts_stay_alone_witness :
  input_ok with_outcasts = true ∧ with_outcasts !! 1%nat = Some no_peaks ∧
  (num_peaks no_peaks = 0%nat ∨ is_finite (pepmass no_peaks) = false) ∧
  ∃ clusters,
    cluster_spectra (initialize_cluster (length with_outcasts)) with_outcasts
      = Some clusters ∧
    clusters !! 1%nat = Some 1%nat ∧ ∀ j, j ≠ 1%nat → clusters !! j ≠ Some 1%nat.
Proof.
  assert (input_ok with_outcasts = true) as Hok by (vm_compute; reflexivity).
  assert (with_outcasts !! 1%nat = Some no_peaks) as Hi by reflexivity.
  assert (num_peaks no_peaks = 0%nat ∨ is_finite (pepmass no_peaks) = false) as Hout
    by (left; reflexivity).
  do 3 (split; [assumption|]).
  exact (proj1 (outcasts_stay_alone with_outcasts 1 no_peaks Hok Hi Hout)).
Defined.

Lemma candidates_bounded_by_clusters_witness :
  input_ok scenario_A = true ∧ (2 < length scenario_A)%nat ∧
  ∃ clusters peak_buckets si candidates,
    cluster_prefix 2 (initialize_cluster (length scenario_A)) scenario_A
      = Some (clusters, peak_buckets) ∧
    scenario_A !! 2%nat = Some si ∧
    get_common_peak_candidates si peak_buckets = Some candidates ∧
    NoDup candidates.
Proof.
  assert (input_ok scenario_A = true) as Hok by (vm_compute; reflexivity).
  assert (2 < length scenario_A)%nat as Hi by (simpl; lia).
  do 2 (split; [assumption|]).
  destruct (candidates_bounded_by_clusters scenario_A 2 Hok Hi)
    as (clusters & peak_buckets & si & candidates & H1 & H2 & H3 & H4 & _).
  exists clusters, peak_buckets, si, candidates.
  split; [exact H1|]. split; [exact H2|]. split; [exact H3|exact H4].
Defined.


Lemma later_spectra_change_nothing_witness :
  input_ok scenario_A = true ∧
  ∃ final,
    cluster_spectra (initialize_cluster (length scenario_A)) scenario_A = Some final ∧
    cluster_spectra (initialize_cluster (length (take 2 scenario_A))) (take 2 scenario_A)
      = Some (take 2 final).
Proof.
  assert (input_ok scenario_A = true) as Hok by (vm_compute; reflexivity).
  split; [assumption|].
  exact (proj1 (later_spectra_change_nothing scenario_A 2 Hok)).
Defined.

